(** * Speaker trial generation (data_utility/scripts/generate_speaker_trials.py)

    A shallow embedding of the sample aggregator and of the pair-generation
    engine, with the properties of the trial list stated over it.

    Python values are modelled as follows:
    - [str]                         as [string];
    - [set] / [frozenset] of [str]  as [gset string];
    - [dict] / [defaultdict]        as [gmap];
    - an iterator over tuples       as the list of tuples it still has to yield;
    - a raised exception            as [Raise e]. *)

From stdpp Require Import gmap strings list fin_maps fin_sets sorting.


(** ** Exceptions and results *)

Inductive exn : Type :=
  | ValueError          (* raise ValueError(...), failed tuple unpacking *)
  | KeyError            (* d[k] on a plain dict without k, set().pop() *)
  | IndexError          (* [].pop() *)
  | AssertionError.     (* assert *)

(** The third constructor is only produced by the fuel-indexed loop of the
    scheduler when its fuel is used up; see [exhaust_state_returns]. *)
Inductive outcome (A : Type) : Type :=
  | Return (a : A)
  | Raise (e : exn)
  | OutOfFuel.
Arguments Return {A} a.
Arguments Raise {A} e.
Arguments OutOfFuel {A}.

#[global] Instance outcome_bind : MBind outcome := λ A B f m,
  match m with
  | Return a => f a
  | Raise e => Raise e
  | OutOfFuel => OutOfFuel
  end.

Definition raises {A} (m : outcome A) : Prop := ∃ e, m = Raise e.

#[global] Instance exn_eq_dec : EqDecision exn.
Proof. solve_decision. Defined.

(** ** Aggregate all unique samples *)

(** The fields of [WavAudioDataSample] that the aggregator reads; the
    labels are optional. *)
Record WavAudioDataSample : Type := {
  key : string;
  speaker_id : option string;
  gender : option string;
}.

Module WavAudioDataSampleTrialAggregator.

Record t : Type := {
  speaker_ids : gset string;
  sample_ids : gset string;
  map_sample_id_to_speaker_id : gmap string string;
  _map_speaker_id_to_gender : gmap string (gset string);
}.

Definition __init__ : t :=
  {| speaker_ids := ∅;
     sample_ids := ∅;
     map_sample_id_to_speaker_id := ∅;
     _map_speaker_id_to_gender := ∅ |}.

(** [defaultdict(set)]: a missing key reads as the empty set. *)
Definition gender_set_of (m : gmap string (gset string)) (k : string)
  : gset string :=
  default ∅ (m !! k).

Definition __call__ (self : t) (x : WavAudioDataSample) : outcome t :=
  let sample_id := key x in
  if bool_decide (sample_id ∈ sample_ids self) then Raise ValueError
  else
    match speaker_id x with
    | None => Raise ValueError
    | Some speaker_id =>
      match gender x with
      | None => Raise ValueError
      | Some gender =>
        Return
          {| sample_ids := sample_ids self ∪ {[sample_id]};
             speaker_ids := speaker_ids self ∪ {[speaker_id]};
             map_sample_id_to_speaker_id :=
               <[sample_id := speaker_id]> (map_sample_id_to_speaker_id self);
             _map_speaker_id_to_gender :=
               <[speaker_id :=
                   gender_set_of (_map_speaker_id_to_gender self) speaker_id
                   ∪ {[gender]}]>
                 (_map_speaker_id_to_gender self) |}
      end
    end.

(** [s.pop()]: removes and returns some element of [s]. *)
Definition set_pop (s : gset string) : option (string * gset string) :=
  match elements s with
  | [] => None
  | g :: _ => Some (g, s ∖ {[g]})
  end.

Section get_gender_mapping.

(** [sorted(keys, key=sort_speaker_id_key)]: the helper
    [sort_speaker_id_key] lives in [data_utility.util.various]; all that
    is used of the sort is that it reorders its input. *)
Variable sorted_by_speaker_id_key : list string → list string.

(** The body of the [for] loop, threaded over the remaining keys; the
    second component is the dictionary of gender sets as the loop
    leaves it (the sets are popped in place). *)
Fixpoint gender_loop (keys : list string)
    (genders : gmap string (gset string))
    (map_to_return : gmap string string)
  : outcome (gmap string string) * gmap string (gset string) :=
  match keys with
  | [] => (Return map_to_return, genders)
  | speaker_id :: keys =>
    let gender_set := gender_set_of genders speaker_id in
    if bool_decide (size gender_set ≠ 1) then (Raise ValueError, genders)
    else
      match set_pop gender_set with
      | None => (Raise KeyError, genders)
      | Some (gender, gender_set) =>
        let genders := <[speaker_id := gender_set]> genders in
        if bool_decide (gender = "f" ∨ gender = "m")
        then gender_loop keys genders (<[speaker_id := gender]> map_to_return)
        else (Raise AssertionError, genders)
      end
  end.

Definition get_gender_mapping (self : t)
  : outcome (gmap string string) * t :=
  let '(r, genders) :=
    gender_loop
      (sorted_by_speaker_id_key
         (elements (dom (_map_speaker_id_to_gender self))))
      (_map_speaker_id_to_gender self) ∅ in
  (r, {| speaker_ids := speaker_ids self;
         sample_ids := sample_ids self;
         map_sample_id_to_speaker_id := map_sample_id_to_speaker_id self;
         _map_speaker_id_to_gender := genders |}).

End get_gender_mapping.

End WavAudioDataSampleTrialAggregator.

(** ** Python's ordering and iteration conventions *)

(** [a < b], the only comparison [sorted] uses. *)
Class PyOrd (K : Type) := py_lt : K → K → bool.

#[global] Instance str_ord : PyOrd string := String.ltb.

(** Tuples compare lexicographically: the first component decides unless
    both are equal. *)
#[global] Instance tuple_ord `{EqDecision A, PyOrd A, PyOrd B} : PyOrd (A * B) :=
  λ x y, if bool_decide (x.1 = y.1) then py_lt x.2 y.2 else py_lt x.1 y.1.

Section sorted.
Context {A K : Type} `{PyOrd K} (f : A → K).

Fixpoint insert_by (x : A) (l : list A) : list A :=
  match l with
  | [] => [x]
  | y :: l' => if py_lt (f y) (f x) then y :: insert_by x l' else x :: l
  end.

(** [sorted(l, key=f)]: a stable sort. *)
Definition sorted_by (l : list A) : list A := foldr insert_by [] l.
End sorted.

Definition sorted `{PyOrd K} (l : list K) : list K := sorted_by id l.

(** The order in which a hash-based [set] or [frozenset] hands out its
    elements.  It is fixed within one run of the interpreter, but depends on
    the string hash seed of the run and on the insertion history, so the
    engine is parametrised by it. *)
Class HashOrder := {
  set_iter : ∀ `{Countable A}, gset A → list A;
  set_iter_perm : ∀ `{Countable A} (s : gset A), set_iter s ≡ₚ elements s;
}.

(** [l.pop()]: removes and returns the last element. *)
Definition list_pop {A} (l : list A) : option (A * list A) :=
  match last l with
  | None => None
  | Some x => Some (x, removelast l)
  end.

(** [d[k]] on a plain [dict]. *)
Definition dict_get `{Countable K} {V} (d : gmap K V) (k : K) : outcome V :=
  match d !! k with
  | Some v => Return v
  | None => Raise KeyError
  end.

(** [list(d.keys())] *)
Definition dict_keys `{Countable K} {V} (d : gmap K V) : list K :=
  (map_to_list d).*1.

(** [itertools.combinations(v, r=2)] *)
Fixpoint combinations2 {A} (v : list A) : list (A * A) :=
  match v with
  | [] => []
  | x :: v' => (pair x <$> v') ++ combinations2 v'
  end.

(** [itertools.product(v1, v2)] *)
Definition product {A B} (v1 : list A) (v2 : list B) : list (A * B) :=
  x ← v1; pair x <$> v2.

(** ** Trials *)

(** Modelled from the spec: [SpeakerTrial] is declared in
    [data_utility.eval.speaker.evaluator]; section 3 of the specification
    gives its three fields. *)
Record SpeakerTrial : Type := {
  left : string;
  right : string;
  same_speaker : bool;
}.

#[global] Instance SpeakerTrial_eq_dec : EqDecision SpeakerTrial.
Proof. solve_decision. Defined.

#[global] Instance SpeakerTrial_countable : Countable SpeakerTrial.
Proof.
  refine (inj_countable'
    (λ t, (left t, right t, same_speaker t))
    (λ p, {| left := p.1.1; right := p.1.2; same_speaker := p.2 |}) _).
  by intros [].
Defined.

(** The unordered pair of sample ids of a trial. *)
Definition trial_pair (t : SpeakerTrial) : gset string :=
  {[left t; right t]}.

(** ** The round-robin scheduler *)

Section scheduler.
Context `{HashOrder} `{Countable K} `{PyOrd K}.

(** The local state of [_exhaust_pairs_iterator_dictionary]. Each
    generator is the list of tuples it has not yielded yet. *)
Record loop_state : Type := {
  generators : gmap K (list (string * string));
  key_queue : list K;
  pairs : gset (gset string);
}.

Definition continue_loop (limit_num_trials : option Z) (st : loop_state)
  : bool :=
  match limit_num_trials with
  | None => bool_decide (0 < size (generators st))
  | Some limit =>
    bool_decide (0 < size (generators st))
    && bool_decide (Z.of_nat (size (pairs st)) < limit)%Z
  end.

(** One pass through the body of the [while] loop. *)
Definition loop_body (st : loop_state) : outcome loop_state :=
  let key_queue :=
    if bool_decide (length (key_queue st) = 0)
    then sorted (dict_keys (generators st))
    else key_queue st in
  match list_pop key_queue with
  | None => Raise IndexError
  | Some (key, key_queue) =>
    generator ← dict_get (generators st) key;
    match generator with
    | [] =>
      (* remove from dictionary as it is exhausted *)
      Return {| generators := delete key (generators st);
                key_queue := key_queue;
                pairs := pairs st |}
    | (p1, p2) :: generator =>
      let pair : gset string := {[p1; p2]} in
      if bool_decide (pair ∈ pairs st) then Raise ValueError
      else
        Return {| generators := <[key := generator]> (generators st);
                  key_queue := key_queue;
                  pairs := pairs st ∪ {[pair]} |}
    end
  end.

Fixpoint while_loop (limit_num_trials : option Z) (fuel : nat)
    (st : loop_state) : outcome loop_state :=
  if continue_loop limit_num_trials st then
    match fuel with
    | 0 => OutOfFuel
    | S fuel =>
      st ← loop_body st;
      while_loop limit_num_trials fuel st
    end
  else Return st.

(** Every pass either pulls one tuple or removes one generator, so this
    many passes are enough. *)
Definition passes (gens : gmap K (list (string * string))) : nat :=
  sum_list ((λ kv, S (length kv.2)) <$> map_to_list gens).

Definition initial_state (gens : gmap K (list (string * string)))
  : loop_state :=
  {| generators := gens;
     key_queue := sorted (dict_keys gens);
     pairs := ∅ |}.

(** The loop, with the dictionary of generators as it leaves it (the
    caller's dictionary is updated in place). *)
Definition exhaust_state (gens : gmap K (list (string * string)))
    (limit_num_trials : option Z) : outcome loop_state :=
  while_loop limit_num_trials (passes gens) (initial_state gens).

Definition _exhaust_pairs_iterator_dictionary
    (gens : gmap K (list (string * string)))
    (limit_num_trials : option Z) : outcome (list (list string)) :=
  st ← exhaust_state gens limit_num_trials;
  Return (set_iter <$> set_iter (pairs st)).

End scheduler.

(** ** Create a trial list based on the aggregated data *)

Section generate.
Context `{HashOrder}.

(** [str(x)] for a trial [x], defined with [SpeakerTrial]. *)
Variable trial_str : SpeakerTrial → string.

(** The [for] loop gives every key of [samples_per_speaker] the generator
    of the 2-combinations of its list. *)
Definition _positive_pairs (samples_per_speaker : gmap string (list string))
    (limit_num_trials : option Z) : outcome (list (list string)) :=
  let generators := combinations2 <$> samples_per_speaker in
  _exhaust_pairs_iterator_dictionary generators limit_num_trials.

(** [tuple(sorted([k1, k2]))] *)
Definition sorted_tuple (k1 k2 : string) : string * string :=
  if py_lt k2 k1 then (k2, k1) else (k1, k2).

Section negative.
Variable ensure_same_sex_trials : bool.
Variable gender_map : gmap string string.

(** The condition of the [if] that skips a speaker combination. *)
Definition skip_combination (k1 k2 : string) : outcome bool :=
  if bool_decide (k1 = k2) then Return true
  else if ensure_same_sex_trials then
    g1 ← dict_get gender_map k1;
    g2 ← dict_get gender_map k2;
    Return (bool_decide (g1 ≠ g2))
  else Return false.

Fixpoint inner_loop (k1 : string) (keys : list string)
    (speaker_pair_set : gset (string * string))
  : outcome (gset (string * string)) :=
  match keys with
  | [] => Return speaker_pair_set
  | k2 :: keys =>
    skip ← skip_combination k1 k2;
    inner_loop k1 keys
      (if skip : bool then speaker_pair_set
       else speaker_pair_set ∪ {[sorted_tuple k1 k2]})
  end.

Fixpoint outer_loop (keys1 keys2 : list string)
    (speaker_pair_set : gset (string * string))
  : outcome (gset (string * string)) :=
  match keys1 with
  | [] => Return speaker_pair_set
  | k1 :: keys1 =>
    speaker_pair_set ← inner_loop k1 keys2 speaker_pair_set;
    outer_loop keys1 keys2 speaker_pair_set
  end.

(** The dictionary filled by the second [for] loop; the keys come from a
    set, so no key is assigned twice. *)
Definition negative_generators
    (samples_per_speaker : gmap string (list string))
    (speaker_pair_set : gset (string * string))
  : gmap (string * string) (list (string * string)) :=
  list_to_map
    ((λ c, (c, product (samples_per_speaker !!! c.1)
                       (samples_per_speaker !!! c.2)))
       <$> set_iter speaker_pair_set).

Definition _negative_pairs
    (samples_per_speaker : gmap string (list string))
    (limit_num_trials : option Z) : outcome (list (list string)) :=
  let keys := sorted (dict_keys samples_per_speaker) in
  speaker_pair_set ← outer_loop keys keys ∅;
  _exhaust_pairs_iterator_dictionary
    (negative_generators samples_per_speaker speaker_pair_set)
    limit_num_trials.
End negative.

Fixpoint samples_loop (map_sample_to_speaker : gmap string string)
    (samples : list string)
    (samples_per_speaker : gmap string (list string))
  : outcome (gmap string (list string)) :=
  match samples with
  | [] => Return samples_per_speaker
  | sample :: samples =>
    speaker ← dict_get map_sample_to_speaker sample;
    samples_loop map_sample_to_speaker samples
      (<[speaker := samples_per_speaker !!! speaker ++ [sample]]>
         samples_per_speaker)
  end.

Definition _samples_per_speaker (samples : gset string)
    (map_sample_to_speaker : gmap string string)
  : outcome (gmap string (list string)) :=
  samples_loop map_sample_to_speaker (set_iter samples) ∅.

(** [SpeakerTrial(left, right, same_speaker=b) for left, right in l] *)
Fixpoint trials_of (b : bool) (l : list (list string))
  : outcome (list SpeakerTrial) :=
  match l with
  | [] => Return []
  | tuple :: l =>
    match tuple with
    | [left; right] =>
      ts ← trials_of b l;
      Return ({| left := left; right := right; same_speaker := b |} :: ts)
    | _ => Raise ValueError
    end
  end.

(** [set(SpeakerTrial(left, right, same_speaker=b) for left, right in l)] *)
Definition trial_set (b : bool) (l : list (list string))
  : outcome (gset SpeakerTrial) :=
  ts ← trials_of b l;
  Return (list_to_set ts).

Definition generate_speaker_trials (samples : gset string)
    (map_sample_to_speaker : gmap string string)
    (map_speaker_to_gender : gmap string string)
    (ensure_same_sex_trials : bool)
    (limit_num_trials : option Z) : outcome (list SpeakerTrial) :=
  samples_per_speaker ← _samples_per_speaker samples map_sample_to_speaker;
  (* generate all positive pairs until exhaustion or until the limit is met *)
  l ← _positive_pairs samples_per_speaker limit_num_trials;
  pos_pairs ← trial_set true l;
  (* generate all negative pairs until exhaustion or until the limit is met *)
  l ← _negative_pairs ensure_same_sex_trials map_speaker_to_gender
        samples_per_speaker limit_num_trials;
  neg_pairs ← trial_set false l;
  (* return as list *)
  let pos_pairs := sorted_by trial_str (set_iter pos_pairs) in
  let neg_pairs := sorted_by trial_str (set_iter neg_pairs) in
  Return (pos_pairs ++ neg_pairs).

End generate.

(** ** Entrypoint of CLI *)

Section entrypoint.
Import WavAudioDataSampleTrialAggregator.
Context `{HashOrder}.
Variable sorted_by_speaker_id_key : list string → list string.
Variable trial_str : SpeakerTrial → string.

(** [for x in ...: ag(x)]: the loop over all samples in the pipeline. *)
Fixpoint ingest (ag : t) (dp : list WavAudioDataSample) : outcome t :=
  match dp with
  | [] => Return ag
  | x :: dp =>
    ag ← __call__ ag x;
    ingest ag dp
  end.

(** [main], from the samples the data pipeline hands out to the trials
    that are written to the file. *)
Definition main (dp : list WavAudioDataSample)
    (ensure_same_sex_trials : bool) (limit_num_trials : option Z)
  : outcome (list SpeakerTrial) :=
  ag ← ingest __init__ dp;
  (* collect data *)
  let samples := sample_ids ag in
  let '(gender_map, ag) := get_gender_mapping sorted_by_speaker_id_key ag in
  gender_map ← gender_map;
  let sample_map := map_sample_id_to_speaker_id ag in
  (* generate trials *)
  generate_speaker_trials trial_str samples sample_map gender_map
    ensure_same_sex_trials limit_num_trials.

End entrypoint.

(** * Notions used in the statements *)

(** The entry of a speaker that passes both checks of the loop of
    [get_gender_mapping]. *)
Definition gender_ok (genders : gmap string (gset string)) (k : string)
  : Prop :=
  ∃ g, genders !! k = Some {[g]} ∧ (g = "f" ∨ g = "m").

(** [frozenset([p1, p2])] for a tuple [(p1, p2)]. *)
Definition fs (p : string * string) : gset string := {[p.1; p.2]}.

Section scheduler_notions.
Context `{Countable K}.
Implicit Types (gens : gmap K (list (string * string))) (k : K).

(** What generator [k] can still yield; nothing once it is removed. *)
Definition remaining gens k : list (string * string) :=
  default [] (gens !! k).

(** The number of tuples pulled from generator [k] between the
    dictionary [gens0] handed to the scheduler and the dictionary [gens]. *)
Definition yielded gens0 gens k : nat :=
  length (remaining gens0 k) - length (remaining gens k).

(** The tuples pulled from generator [k]. *)
Definition pulled gens0 gens k : list (string * string) :=
  take (yielded gens0 gens k) (remaining gens0 k).

(** No unordered pair is produced twice, neither by one generator nor by
    two of them. *)
Definition distinct_pairs gens : Prop :=
  (∀ k g, gens !! k = Some g → NoDup (fs <$> g))
  ∧ (∀ k1 k2 g1 g2 p1 p2,
       gens !! k1 = Some g1 → gens !! k2 = Some g2 →
       p1 ∈ g1 → p2 ∈ g2 → fs p1 = fs p2 → k1 = k2).

(** The invariant of the [while] loop, at its head, in round [r]
    (counted from 0): the keys in the queue have been served [r] times,
    the other active keys [r + 1] times, and a removed generator ran dry
    in an earlier round. *)
Record scheduler_inv gens0 (r : nat) (st : loop_state) : Prop := {
  inv_nodup : NoDup (key_queue st);
  inv_queue : ∀ k, k ∈ key_queue st → is_Some (generators st !! k);
  inv_dom : ∀ k, gens0 !! k = None → generators st !! k = None;
  inv_suffix : ∀ k,
    ∃ pre, remaining gens0 k = pre ++ remaining (generators st) k;
  inv_turn : ∀ k, is_Some (generators st !! k) →
    yielded gens0 (generators st) k
    = if decide (k ∈ key_queue st) then r else S r;
  inv_gone : ∀ k, generators st !! k = None →
    length (remaining gens0 k) ≤ r;
  inv_pairs : ∀ q, q ∈ pairs st ↔
    ∃ k p, p ∈ pulled gens0 (generators st) k ∧ q = fs p;
}.
End scheduler_notions.

(** Well-formed speaker groups: no sample id occurs twice, neither in one
    list nor in the lists of two speakers. *)
Definition groups_wf (samples_per_speaker : gmap string (list string))
  : Prop :=
  (∀ k v, samples_per_speaker !! k = Some v → NoDup v)
  ∧ (∀ k1 k2 v1 v2 x,
       samples_per_speaker !! k1 = Some v1 →
       samples_per_speaker !! k2 = Some v2 →
       x ∈ v1 → x ∈ v2 → k1 = k2).

(** The speaker pair [(k1, k2)] is not skipped by [_negative_pairs]. *)
Definition qualifies (ensure_same_sex_trials : bool)
    (gender_map : gmap string string) (k1 k2 : string) : Prop :=
  k1 ≠ k2
  ∧ (ensure_same_sex_trials = true →
     ∃ g, gender_map !! k1 = Some g ∧ gender_map !! k2 = Some g).

(** The inputs on which no dictionary lookup of [generate_speaker_trials]
    fails: every sample has a speaker and, when genders are consulted,
    every such speaker has a gender. *)
Definition valid_input (samples : gset string)
    (map_sample_to_speaker map_speaker_to_gender : gmap string string)
    (ensure_same_sex_trials : bool) : Prop :=
  (∀ x, x ∈ samples → is_Some (map_sample_to_speaker !! x))
  ∧ (ensure_same_sex_trials = true →
     ∀ x s, x ∈ samples → map_sample_to_speaker !! x = Some s →
            is_Some (map_speaker_to_gender !! s)).

(** No generator yields a tuple of twice the same sample id. *)
Definition proper_tuples `{Countable K}
    (gens : gmap K (list (string * string))) : Prop :=
  ∀ k g x y, gens !! k = Some g → (x, y) ∈ g → x ≠ y.

(** An unordered pair of two samples of one speaker. *)
Definition same_speaker_pair (samples : gset string)
    (map_sample_to_speaker : gmap string string) (q : gset string) : Prop :=
  ∃ x y s, x ∈ samples ∧ y ∈ samples ∧ x ≠ y
           ∧ map_sample_to_speaker !! x = Some s
           ∧ map_sample_to_speaker !! y = Some s
           ∧ q = {[x; y]}.

(** An unordered pair of samples of two speakers that qualify as a
    speaker pair. *)
Definition cross_speaker_pair (samples : gset string)
    (map_sample_to_speaker map_speaker_to_gender : gmap string string)
    (ensure_same_sex_trials : bool) (q : gset string) : Prop :=
  ∃ x y s1 s2, x ∈ samples ∧ y ∈ samples
               ∧ map_sample_to_speaker !! x = Some s1
               ∧ map_sample_to_speaker !! y = Some s2
               ∧ qualifies ensure_same_sex_trials map_speaker_to_gender s1 s2
               ∧ q = {[x; y]}.

(** A trial up to the orientation of its pair. *)
Definition trial_key (t : SpeakerTrial) : gset string * bool :=
  (trial_pair t, same_speaker t).

(** What [generate_speaker_trials] returns: the sorted positive trials
    [pos] followed by the sorted negative trials [neg]. *)
Record trial_list_spec (samples : gset string)
    (map_sample_to_speaker map_speaker_to_gender : gmap string string)
    (ensure_same_sex_trials : bool) (limit_num_trials : option Z)
    (pos neg : list SpeakerTrial) : Prop := {
  pos_flags : Forall (λ t, same_speaker t = true) pos;
  neg_flags : Forall (λ t, same_speaker t = false) neg;
  pos_NoDup : NoDup (trial_pair <$> pos);
  neg_NoDup : NoDup (trial_pair <$> neg);
  pos_sound : ∀ q, q ∈ trial_pair <$> pos →
    same_speaker_pair samples map_sample_to_speaker q;
  neg_sound : ∀ q, q ∈ trial_pair <$> neg →
    cross_speaker_pair samples map_sample_to_speaker map_speaker_to_gender
      ensure_same_sex_trials q;
  pos_complete : limit_num_trials = None →
    ∀ q, same_speaker_pair samples map_sample_to_speaker q →
         q ∈ trial_pair <$> pos;
  neg_complete : limit_num_trials = None →
    ∀ q, cross_speaker_pair samples map_sample_to_speaker
           map_speaker_to_gender ensure_same_sex_trials q →
         q ∈ trial_pair <$> neg;
  pos_limit : ∀ n, limit_num_trials = Some n →
    (Z.of_nat (length pos) ≤ Z.max 0 n)%Z;
  neg_limit : ∀ n, limit_num_trials = Some n →
    (Z.of_nat (length neg) ≤ Z.max 0 n)%Z;
}.

(** The samples of speaker [s]. *)
Definition speaker_samples (samples : gset string)
    (map_sample_to_speaker : gmap string string) (s : string) : gset string :=
  filter (λ x, map_sample_to_speaker !! x = Some s) samples.

(** The number of tuples of the returned pair list that are pairs of
    generator [k]. *)
Definition contributed `{Countable K} (gens : gmap K (list (string * string)))
    (k : K) (out : list (list string)) : nat :=
  length (filter (λ t, (list_to_set t : gset string) ∈ fs <$> remaining gens k)
                 out).

(** The number of tuples all generators can yield together. *)
Definition total_pairs `{Countable K} (gens : gmap K (list (string * string)))
  : nat :=
  sum_list (length <$> (map_to_list gens).*2).

(** A boolean check of [valid_input]. *)
Definition check_sample (map_sample_to_speaker map_speaker_to_gender
    : gmap string string) (ensure_same_sex_trials : bool) (x : string) : bool :=
  match map_sample_to_speaker !! x with
  | Some s =>
    if ensure_same_sex_trials
    then bool_decide (is_Some (map_speaker_to_gender !! s)) else true
  | None => false
  end.

Definition valid_inputb (samples : gset string)
    (map_sample_to_speaker map_speaker_to_gender : gmap string string)
    (ensure_same_sex_trials : bool) : bool :=
  forallb (check_sample map_sample_to_speaker map_speaker_to_gender
             ensure_same_sex_trials) (elements samples).

(** A boolean check of [groups_wf]: the lists of all speakers together
    hold no sample id twice. *)
Definition groups_wfb (samples_per_speaker : gmap string (list string))
  : bool :=
  bool_decide (NoDup (mjoin (map_to_list samples_per_speaker).*2)).

(** A sample that carries both labels. *)
Definition labelled (x : WavAudioDataSample) : Prop :=
  is_Some (speaker_id x) ∧ is_Some (gender x).

(** The aggregator state [ag] records exactly the samples [dp]. *)
Record ingested (dp : list WavAudioDataSample)
    (ag : WavAudioDataSampleTrialAggregator.t) : Prop := {
  ing_samples : ∀ k,
    k ∈ WavAudioDataSampleTrialAggregator.sample_ids ag ↔
    ∃ x, x ∈ dp ∧ key x = k;
  ing_speakers : ∀ s,
    s ∈ WavAudioDataSampleTrialAggregator.speaker_ids ag ↔
    ∃ x, x ∈ dp ∧ speaker_id x = Some s;
  ing_map : ∀ k s,
    WavAudioDataSampleTrialAggregator.map_sample_id_to_speaker_id ag !! k
    = Some s ↔
    ∃ x, x ∈ dp ∧ key x = k ∧ speaker_id x = Some s;
  ing_gender_dom : ∀ s,
    is_Some (WavAudioDataSampleTrialAggregator._map_speaker_id_to_gender ag
             !! s) ↔
    ∃ x, x ∈ dp ∧ speaker_id x = Some s;
  ing_genders : ∀ s g,
    g ∈ WavAudioDataSampleTrialAggregator.gender_set_of
          (WavAudioDataSampleTrialAggregator._map_speaker_id_to_gender ag) s ↔
    ∃ x, x ∈ dp ∧ speaker_id x = Some s ∧ gender x = Some g;
}.

(** A pipeline [main] can work with: no sample id twice, both labels on
    every sample, one gender per speaker, and no gender but "f" and "m". *)
Definition clean_stream (dp : list WavAudioDataSample) : Prop :=
  NoDup (key <$> dp) ∧ Forall labelled dp
  ∧ (∀ x y, x ∈ dp → y ∈ dp → speaker_id x = speaker_id y →
            gender x = gender y)
  ∧ (∀ x g, x ∈ dp → gender x = Some g → g = "f" ∨ g = "m").

(** The gender lookups of [_negative_pairs] for the speakers [k1] and [k2]
    are made and one of them fails. *)
Definition lookup_fails (ensure_same_sex_trials : bool)
    (gender_map : gmap string string) (k1 k2 : string) : Prop :=
  ensure_same_sex_trials = true ∧ k1 ≠ k2
  ∧ (gender_map !! k1 = None ∨ gender_map !! k2 = None).

(** [b] does not come before [a] in the order of [sorted(_, key=f)]. *)
Definition not_before {A} `{PyOrd K} (f : A → K) (a b : A) : Prop :=
  py_lt (f b) (f a) = false.

(** The tuples pulled so far repeat no unordered pair. *)
Definition pulled_distinct `{Countable K}
    (gens0 gens : gmap K (list (string * string))) : Prop :=
  (∀ k, NoDup (fs <$> pulled gens0 gens k))
  ∧ (∀ k1 k2 p1 p2,
       p1 ∈ pulled gens0 gens k1 → p2 ∈ pulled gens0 gens k2 →
       fs p1 = fs p2 → k1 = k2).

(** ** Two runs and some inputs *)

(** A run in which every set is iterated in the order of [elements], and
    one in which it is iterated in the opposite order. *)
Definition hash_elements : HashOrder :=
  {| set_iter := λ A _ _ s, elements s;
     set_iter_perm := λ A _ _ s, reflexivity _ |}.

Definition hash_reversed : HashOrder :=
  {| set_iter := λ A _ _ s, reverse (elements s);
     set_iter_perm := λ A _ _ s, reverse_Permutation (elements s) |}.

(** A rendering of a trial as a line of text: the two ids and the flag. *)
Definition line_of_trial (t : SpeakerTrial) : string :=
  left t +:+ " " +:+ right t +:+ " " +:+ (if same_speaker t then "1" else "0").

(** The example of the specification: speakers A (three samples) and B
    (two samples) are female, speaker C (one sample) is male. *)
Definition example_samples : gset string :=
  list_to_set ["a1"; "a2"; "a3"; "b1"; "b2"; "c1"].

Definition example_speakers : gmap string string :=
  list_to_map [("a1", "A"); ("a2", "A"); ("a3", "A");
               ("b1", "B"); ("b2", "B"); ("c1", "C")].

Definition example_genders : gmap string string :=
  list_to_map [("A", "f"); ("B", "f"); ("C", "m")].

Definition example_groups : gmap string (list string) :=
  list_to_map [("A", ["a3"; "a1"; "a2"]); ("B", ["b1"; "b2"]); ("C", ["c1"])].

(** One speaker with three samples. *)
Definition one_speaker_samples : gset string := list_to_set ["a1"; "a2"; "a3"].

Definition one_speaker : gmap string string :=
  list_to_map [("a1", "A"); ("a2", "A"); ("a3", "A")].

(** A speaker with four samples (six pairs) next to one with two samples
    (one pair). *)
Definition uneven_groups : gmap string (list string) :=
  list_to_map [("A", ["a1"; "a2"; "a3"; "a4"]); ("B", ["b1"; "b2"])].

(** An aggregator state after observing two samples of one speaker. *)
Definition example_aggregator : WavAudioDataSampleTrialAggregator.t :=
  {| WavAudioDataSampleTrialAggregator.speaker_ids := {["A"]};
     WavAudioDataSampleTrialAggregator.sample_ids := {["a1"; "a2"]};
     WavAudioDataSampleTrialAggregator.map_sample_id_to_speaker_id :=
       list_to_map [("a1", "A"); ("a2", "A")];
     WavAudioDataSampleTrialAggregator._map_speaker_id_to_gender :=
       {["A" := {["f"]}]} |}.

(** The two samples that lead to [example_aggregator]. *)
Definition example_stream : list WavAudioDataSample :=
  [{| key := "a1"; speaker_id := Some "A"; gender := Some "f" |};
   {| key := "a2"; speaker_id := Some "A"; gender := Some "f" |}].

(** * Properties *)

Section aggregator_facts.
Import WavAudioDataSampleTrialAggregator.

Lemma set_pop_singleton g : set_pop {[g]} = Some (g, ∅).
Proof.
  unfold set_pop. rewrite elements_singleton. f_equal. f_equal.
  apply difference_diag_L.
Qed.

Lemma gender_set_of_Some genders k gs :
  genders !! k = Some gs → gender_set_of genders k = gs.
Proof. unfold gender_set_of. by intros ->. Qed.

Lemma gender_set_size_1 genders k :
  size (gender_set_of genders k) = 1 →
  ∃ g, genders !! k = Some {[g]}.
Proof.
  unfold gender_set_of. destruct (genders !! k) as [gs|] eqn:E; cbn [from_option id].
  - intros [g Hg]%size_1_elem_of. exists g. f_equal. by apply leibniz_equiv.
  - by rewrite size_empty.
Qed.

Lemma gender_loop_ok keys : ∀ genders ret,
  NoDup keys →
  (∀ k, k ∈ keys → gender_ok genders k) →
  ∃ m genders',
    gender_loop keys genders ret = (Return m, genders')
    ∧ (∀ k, k ∈ keys →
         genders' !! k = Some ∅
         ∧ ∃ g, genders !! k = Some {[g]} ∧ m !! k = Some g)
    ∧ (∀ k, k ∉ keys → genders' !! k = genders !! k ∧ m !! k = ret !! k).
Proof.
  induction keys as [|k keys IH]; intros genders ret Hnd Hok; simpl.
  - eexists _, _. split; [done|]. split; [|done]. by intros k ?%elem_of_nil.
  - apply NoDup_cons in Hnd as [Hk Hnd].
    destruct (Hok k) as (g & Hg & Hfm); [left|].
    rewrite (gender_set_of_Some _ _ _ Hg).
    rewrite size_singleton, bool_decide_eq_false_2 by (intros ?; done).
    rewrite set_pop_singleton, bool_decide_eq_true_2 by done.
    destruct (IH (<[k:=∅]> genders) (<[k:=g]> ret) Hnd)
      as (m & genders' & Heq & Hin & Hout).
    { intros k' Hk'. destruct (Hok k') as (g' & Hg' & Hfm'); [by right|].
      exists g'. split; [|done]. rewrite lookup_insert_ne; [done|].
      by intros ->. }
    exists m, genders'. split; [done|]. split.
    + intros k' [->|Hk']%elem_of_cons.
      * destruct (Hout k Hk) as [-> ->].
        rewrite !lookup_insert_eq. eauto.
      * destruct (Hin k' Hk') as (? & g' & Hg' & ?). split; [done|].
        exists g'. split; [|done].
        rewrite lookup_insert_ne in Hg'; [done|]. by intros ->.
    + intros k' [Hne Hk']%not_elem_of_cons.
      destruct (Hout k' Hk') as [-> ->].
      by rewrite !lookup_insert_ne.
Qed.

Lemma gender_loop_fail keys : ∀ genders ret,
  NoDup keys →
  (∃ k, k ∈ keys ∧ ¬ gender_ok genders k) →
  ∃ e genders', gender_loop keys genders ret = (Raise e, genders').
Proof.
  induction keys as [|k keys IH]; intros genders ret Hnd (kb & Hkb & Hbad).
  { by apply elem_of_nil in Hkb. }
  apply NoDup_cons in Hnd as [Hk Hnd]. simpl.
  case_bool_decide as Hsz; [by eauto|].
  destruct (gender_set_size_1 _ _ Hsz) as [g Hg].
  rewrite (gender_set_of_Some _ _ _ Hg), set_pop_singleton.
  case_bool_decide as Hfm; [|by eauto].
  apply IH; [done|]. exists kb.
  apply elem_of_cons in Hkb as [->|Hkb].
  { destruct Hbad. by exists g. }
  split; [done|]. intros (g' & Hg' & ?). apply Hbad. exists g'.
  rewrite lookup_insert_ne in Hg'; [done|]. by intros ->.
Qed.
Lemma gender_loop_Return keys : ∀ genders ret m genders',
  NoDup keys →
  gender_loop keys genders ret = (Return m, genders') →
  ∀ k, k ∈ keys → gender_ok genders k.
Proof.
  induction keys as [|k keys IH]; intros genders ret m genders' Hnd Heq.
  { by intros k ?%elem_of_nil. }
  apply NoDup_cons in Hnd as [Hk Hnd]. simpl in Heq.
  case_bool_decide as Hsz; [done|].
  destruct (gender_set_size_1 _ _ Hsz) as [g Hg].
  rewrite (gender_set_of_Some _ _ _ Hg), set_pop_singleton in Heq.
  case_bool_decide as Hfm; [|done].
  intros k' [->|Hk']%elem_of_cons; [by exists g|].
  destruct (IH _ _ _ _ Hnd Heq k' Hk') as (g' & Hg' & ?).
  exists g'. split; [|done].
  rewrite lookup_insert_ne in Hg'; [done|]. by intros ->.
Qed.

Section sorted_keys.
Variable sortf : list string → list string.
Hypothesis sortf_perm : ∀ l, sortf l ≡ₚ l.

Lemma sorted_keys_NoDup (genders : gmap string (gset string)) :
  NoDup (sortf (elements (dom genders))).
Proof. rewrite sortf_perm. apply NoDup_elements. Qed.

Lemma elem_of_sorted_keys (genders : gmap string (gset string)) k :
  k ∈ sortf (elements (dom genders)) ↔ is_Some (genders !! k).
Proof. by rewrite sortf_perm, elem_of_elements, elem_of_dom. Qed.
End sorted_keys.
End aggregator_facts.

Section aggregator.
Import WavAudioDataSampleTrialAggregator.

(** C7. Observing a sample fails exactly when its id was already observed
    or one of its two labels is absent; otherwise it returns the state in
    which the sample id, its speaker and the gender seen for that speaker
    are recorded, and everything recorded before is kept. *)
Theorem observe_fails_iff (self : t) (x : WavAudioDataSample) :
  (raises (__call__ self x) ↔
     key x ∈ sample_ids self ∨ speaker_id x = None ∨ gender x = None)
  ∧ ((key x ∈ sample_ids self ∨ speaker_id x = None ∨ gender x = None)
     ∨ ∃ s g self',
         speaker_id x = Some s ∧ gender x = Some g
         ∧ __call__ self x = Return self'
         ∧ sample_ids self' = sample_ids self ∪ {[key x]}
         ∧ speaker_ids self' = speaker_ids self ∪ {[s]}
         ∧ map_sample_id_to_speaker_id self' !! key x = Some s
         ∧ (∀ k, k ≠ key x →
              map_sample_id_to_speaker_id self' !! k
              = map_sample_id_to_speaker_id self !! k)
         ∧ gender_set_of (_map_speaker_id_to_gender self') s
           = gender_set_of (_map_speaker_id_to_gender self) s ∪ {[g]}
         ∧ (∀ k, k ≠ s →
              _map_speaker_id_to_gender self' !! k
              = _map_speaker_id_to_gender self !! k)).
Proof.
  unfold __call__, raises.
  destruct (decide (key x ∈ sample_ids self)) as [Hin|Hin].
  { rewrite bool_decide_eq_true_2 by done. split; [|by auto].
    split; [by auto|by eauto]. }
  rewrite bool_decide_eq_false_2 by done.
  destruct (speaker_id x) as [s|]; [|split; [split|]; by eauto].
  destruct (gender x) as [g|]; [|split; [split|]; by eauto].
  split.
  - split; [by intros [e ?]|]. by intros [?|[?|?]].
  - right. eexists s, g, _. do 3 (split; [done|]). simpl.
    do 2 (split; [done|]). split; [by rewrite lookup_insert_eq|].
    split; [by intros k ?; rewrite lookup_insert_ne|].
    split; [|by intros k ?; rewrite lookup_insert_ne].
    unfold gender_set_of at 1. by rewrite lookup_insert_eq.
Qed.

(** C8. The first call of [get_gender_mapping] fails when the gender set
    of some observed speaker does not hold exactly one value, fails when
    some observed gender is neither "f" nor "m", and otherwise returns the
    mapping that gives every observed speaker its one gender (and nothing
    else). *)
Theorem get_gender_mapping_spec (sortf : list string → list string)
    (sortf_perm : ∀ l, sortf l ≡ₚ l) (self : t) :
  let genders := _map_speaker_id_to_gender self in
  let r := (get_gender_mapping sortf self).1 in
  ((∃ k gs, genders !! k = Some gs ∧ size gs ≠ 1) → raises r)
  ∧ ((∃ k gs g, genders !! k = Some gs ∧ g ∈ gs ∧ g ≠ "f" ∧ g ≠ "m") →
     raises r)
  ∧ ((∀ k gs, genders !! k = Some gs →
        size gs = 1 ∧ ∀ g, g ∈ gs → g = "f" ∨ g = "m") →
     ∃ m, r = Return m ∧ ∀ k g, m !! k = Some g ↔ genders !! k = Some {[g]}).
Proof.
  intros genders r. subst r. unfold get_gender_mapping. fold genders.
  pose proof (sorted_keys_NoDup sortf sortf_perm genders) as Hnd.
  assert (Hfail : ∀ k, is_Some (genders !! k) → ¬ gender_ok genders k →
    raises (let '(r, genders') :=
              gender_loop (sortf (elements (dom genders))) genders ∅ in
            (r, {| speaker_ids := speaker_ids self;
                   sample_ids := sample_ids self;
                   map_sample_id_to_speaker_id :=
                     map_sample_id_to_speaker_id self;
                   _map_speaker_id_to_gender := genders' |})).1).
  { intros k Hk Hbad.
    destruct (gender_loop_fail (sortf (elements (dom genders))) genders ∅ Hnd)
      as (e & genders' & ->); [|by exists e].
    exists k. split; [|done]. by apply elem_of_sorted_keys. }
  split; [|split].
  - intros (k & gs & Hk & Hsz). apply (Hfail k); [by eauto|].
    intros (g & Hg & _). rewrite Hk in Hg. injection Hg as ->.
    by rewrite size_singleton in Hsz.
  - intros (k & gs & g & Hk & Hg & Hf & Hm). apply (Hfail k); [by eauto|].
    intros (g' & Hg' & Hfm). rewrite Hk in Hg'. injection Hg' as ->.
    apply elem_of_singleton in Hg as ->. by destruct Hfm.
  - intros Hall.
    destruct (gender_loop_ok (sortf (elements (dom genders))) genders ∅ Hnd)
      as (m & genders' & -> & Hin & Hout).
    { intros k [gs Hk]%elem_of_sorted_keys; [|done].
      destruct (Hall k gs Hk) as [[g Hg]%size_1_elem_of Hfm].
      apply leibniz_equiv in Hg as ->. exists g. split; [done|].
      apply Hfm. by apply elem_of_singleton. }
    exists m. split; [done|]. intros k g.
    destruct (genders !! k) as [gs|] eqn:Hk.
    + destruct (Hin k) as (_ & g' & Hg' & Hm).
      { apply elem_of_sorted_keys; [done|]. by rewrite Hk. }
      rewrite Hk in Hg'. injection Hg' as ->. rewrite Hm.
      split; [by intros [= ->]|].
      intros Heq. apply (inj Some) in Heq.
      apply (inj (singleton (B:=gset string))) in Heq. by rewrite Heq.
    + destruct (Hout k) as [_ ->].
      { rewrite elem_of_sorted_keys, Hk by done. by intros [? ?]. }
      by rewrite lookup_empty.
Qed.

(** C10. When a first call of [get_gender_mapping] succeeds on a state
    with at least one observed speaker, it leaves every gender set empty,
    and a second call raises the [ValueError] of the exactly-one-value
    check. *)
Theorem get_gender_mapping_twice (sortf : list string → list string)
    (sortf_perm : ∀ l, sortf l ≡ₚ l) (self self' : t)
    (m : gmap string string) :
  get_gender_mapping sortf self = (Return m, self') →
  _map_speaker_id_to_gender self ≠ ∅ →
  (∀ k, is_Some (_map_speaker_id_to_gender self !! k) →
        _map_speaker_id_to_gender self' !! k = Some ∅)
  ∧ get_gender_mapping sortf self' = (Raise ValueError, self').
Proof.
  unfold get_gender_mapping. intros Hcall Hne.
  set (genders := _map_speaker_id_to_gender self) in *.
  pose proof (sorted_keys_NoDup sortf sortf_perm genders) as Hnd.
  destruct (gender_loop _ genders ∅) as [r genders'] eqn:Hloop.
  injection Hcall as -> <-. simpl.
  pose proof (gender_loop_Return _ _ _ _ _ Hnd Hloop) as Hok.
  destruct (gender_loop_ok _ genders ∅ Hnd Hok)
    as (m' & genders'' & Heq & Hin & Hout).
  rewrite Hloop in Heq. injection Heq as <- <-.
  assert (Hempty : ∀ k, is_Some (genders !! k) → genders' !! k = Some ∅).
  { intros k Hk. apply Hin. by apply elem_of_sorted_keys. }
  split; [done|].
  assert (Hdom : ∀ k, is_Some (genders' !! k) ↔ is_Some (genders !! k)).
  { intros k. split; [|intros Hk; rewrite Hempty; by eauto].
    intros Hk. destruct (genders !! k) eqn:E; [by eauto|].
    destruct (Hout k) as [Hk' _].
    { rewrite elem_of_sorted_keys, E by done. by intros [? ?]. }
    rewrite Hk', E in Hk. done. }
  destruct (sortf (elements (dom genders'))) as [|k keys] eqn:Hkeys.
  { destruct (map_choose genders Hne) as (k & gs & Hk).
    assert (k ∈ sortf (elements (dom genders'))) as Hin'.
    { apply elem_of_sorted_keys; [done|]. apply Hdom. by eauto. }
    rewrite Hkeys in Hin'. by apply elem_of_nil in Hin'. }
  simpl.
  assert (genders' !! k = Some ∅) as Hk.
  { apply Hempty, Hdom. apply (elem_of_sorted_keys sortf sortf_perm).
    rewrite Hkeys. left. }
  rewrite (gender_set_of_Some _ _ _ Hk), size_empty.
  rewrite bool_decide_eq_true_2 by done. done.
Qed.
End aggregator.

(** ** Sorting and the small list helpers *)

Section sorted_facts.
Context {A K : Type} `{PyOrd K} (f : A → K).

Lemma insert_by_perm x l : insert_by f x l ≡ₚ x :: l.
Proof.
  induction l as [|y l IH]; simpl; [done|].
  destruct (py_lt (f y) (f x)); [|done].
  by rewrite IH, Permutation_swap.
Qed.

Lemma sorted_by_perm l : sorted_by f l ≡ₚ l.
Proof.
  induction l as [|x l IH]; simpl; [done|].
  by rewrite insert_by_perm, IH.
Qed.
End sorted_facts.

Lemma sorted_perm `{PyOrd K} (l : list K) : sorted l ≡ₚ l.
Proof. apply sorted_by_perm. Qed.

Lemma list_pop_Some {A} (l l' : list A) x :
  list_pop l = Some (x, l') ↔ l = l' ++ [x].
Proof.
  unfold list_pop. split.
  - destruct (last l) as [y|] eqn:E; [|done].
    apply last_Some in E as [l'' ->]. rewrite removelast_last.
    by intros [= -> ->].
  - intros ->. by rewrite last_snoc, removelast_last.
Qed.

Lemma list_pop_None {A} (l : list A) : list_pop l = None ↔ l = [].
Proof.
  unfold list_pop. destruct (last l) eqn:E.
  - split; [done|]. by intros ->.
  - by apply last_None in E.
Qed.

Section dict_facts.
Context `{Countable K} {V : Type}.
Implicit Types (d : gmap K V).

Lemma elem_of_dict_keys d k : k ∈ dict_keys d ↔ is_Some (d !! k).
Proof.
  unfold dict_keys. rewrite list_elem_of_fmap. split.
  - intros ([k' v] & -> & Hin). apply elem_of_map_to_list in Hin. by eauto.
  - intros [v Hv]. exists (k, v). split; [done|].
    by apply elem_of_map_to_list.
Qed.

Lemma dict_keys_NoDup d : NoDup (dict_keys d).
Proof. apply NoDup_fst_map_to_list. Qed.

Lemma dict_keys_nil d : dict_keys d = [] → d = ∅.
Proof.
  unfold dict_keys. intros Hnil. apply map_to_list_empty_iff.
  by apply fmap_nil_inv in Hnil.
Qed.

Lemma sorted_dict_keys_NoDup `{PyOrd K} d : NoDup (sorted (dict_keys d)).
Proof. rewrite sorted_perm. apply dict_keys_NoDup. Qed.

Lemma elem_of_sorted_dict_keys `{PyOrd K} d k :
  k ∈ sorted (dict_keys d) ↔ is_Some (d !! k).
Proof. by rewrite sorted_perm, elem_of_dict_keys. Qed.

End dict_facts.

(** ** The invariant of the scheduler *)

Section scheduler_facts.
Context `{Countable K} `{PyOrd K}.
Implicit Types (gens : gmap K (list (string * string))) (k : K).
Implicit Types (st : loop_state (K:=K)).

Lemma remaining_Some gens k g : gens !! k = Some g → remaining gens k = g.
Proof. unfold remaining. by intros ->. Qed.

Lemma remaining_None gens k : gens !! k = None → remaining gens k = [].
Proof. unfold remaining. by intros ->. Qed.

Lemma remaining_delete_nil gens k k' :
  gens !! k = Some [] → remaining (delete k gens) k' = remaining gens k'.
Proof.
  intros Hk. unfold remaining. destruct (decide (k = k')) as [<-|Hne].
  - by rewrite lookup_delete_eq, Hk.
  - by rewrite lookup_delete_ne.
Qed.

Lemma remaining_insert_ne gens k k' g :
  k ≠ k' → remaining (<[k:=g]> gens) k' = remaining gens k'.
Proof. intros Hne. unfold remaining. by rewrite lookup_insert_ne. Qed.

Lemma remaining_insert_eq gens k g : remaining (<[k:=g]> gens) k = g.
Proof. unfold remaining. by rewrite lookup_insert_eq. Qed.

Lemma yielded_suffix gens0 gens k pre :
  remaining gens0 k = pre ++ remaining gens k →
  yielded gens0 gens k = length pre.
Proof. unfold yielded. intros ->. rewrite length_app. lia. Qed.

Lemma pulled_suffix gens0 gens k pre :
  remaining gens0 k = pre ++ remaining gens k →
  pulled gens0 gens k = pre.
Proof.
  intros Hpre. unfold pulled. rewrite (yielded_suffix _ _ _ _ Hpre), Hpre.
  by rewrite take_app_length.
Qed.

Lemma elem_of_pulled gens0 gens k p :
  p ∈ pulled gens0 gens k → p ∈ remaining gens0 k.
Proof. unfold pulled. apply subseteq_take. Qed.

Section invariant.
Variable gens0 : gmap K (list (string * string)).

Lemma scheduler_inv_init : scheduler_inv gens0 0 (initial_state gens0).
Proof.
  split; simpl.
  - apply sorted_dict_keys_NoDup.
  - intros k. by rewrite elem_of_sorted_dict_keys.
  - done.
  - intros k. by exists [].
  - intros k Hk. rewrite (yielded_suffix _ _ _ []) by done.
    by rewrite decide_True by by apply elem_of_sorted_dict_keys.
  - intros k Hk. by rewrite (remaining_None _ _ Hk).
  - intros q. split; [by intros ?%not_elem_of_empty|].
    intros (k & p & Hp & _).
    rewrite (pulled_suffix _ _ _ []) in Hp by done.
    by apply elem_of_nil in Hp.
Qed.

(** Refilling the empty queue starts the next round. *)
Lemma scheduler_inv_refresh r st :
  scheduler_inv gens0 r st →
  key_queue st = [] →
  scheduler_inv gens0 (S r)
    {| generators := generators st;
       key_queue := sorted (dict_keys (generators st));
       pairs := pairs st |}.
Proof.
  intros [Hnd Hq Hdom Hsuf Hturn Hgone Hpairs] Hnil. split; simpl.
  - apply sorted_dict_keys_NoDup.
  - intros k. by rewrite elem_of_sorted_dict_keys.
  - done.
  - done.
  - intros k Hk. rewrite (Hturn k Hk), Hnil.
    rewrite decide_False by apply not_elem_of_nil.
    by rewrite decide_True by by apply elem_of_sorted_dict_keys.
  - intros k Hk. specialize (Hgone k Hk). lia.
  - done.
Qed.

(** The generator that was served is exhausted and is removed. *)
Lemma scheduler_inv_delete r st key queue :
  scheduler_inv gens0 r st →
  key_queue st = queue ++ [key] →
  generators st !! key = Some [] →
  scheduler_inv gens0 r
    {| generators := delete key (generators st);
       key_queue := queue;
       pairs := pairs st |}.
Proof.
  intros [Hnd Hq Hdom Hsuf Hturn Hgone Hpairs] Hqueue Hkey.
  rewrite Hqueue in Hnd, Hq, Hturn.
  apply NoDup_app in Hnd as (Hnd & Hnotin & _).
  assert (Hyield : ∀ k, yielded gens0 (delete key (generators st)) k
                        = yielded gens0 (generators st) k).
  { intros k. unfold yielded. by rewrite remaining_delete_nil. }
  split; simpl.
  - done.
  - intros k Hk. rewrite lookup_delete_ne.
    + apply Hq, elem_of_app. by left.
    + intros <-. apply (Hnotin key Hk). by left.
  - intros k Hk. destruct (decide (key = k)) as [<-|Hne].
    + by rewrite lookup_delete_eq.
    + rewrite lookup_delete_ne by done. by apply Hdom.
  - intros k. rewrite remaining_delete_nil by done. apply Hsuf.
  - intros k Hk. rewrite Hyield.
    destruct (decide (key = k)) as [<-|Hne].
    { rewrite lookup_delete_eq in Hk. by destruct Hk. }
    rewrite lookup_delete_ne in Hk by done. rewrite (Hturn k Hk).
    destruct (decide (k ∈ queue)) as [Hin|Hin].
    + rewrite decide_True; [done|]. apply elem_of_app. by left.
    + rewrite decide_False; [done|].
      intros [?|?%list_elem_of_singleton]%elem_of_app; by simplify_eq.
  - intros k Hk. destruct (decide (key = k)) as [<-|Hne].
    + destruct (Hsuf key) as [pre Hpre].
      assert (yielded gens0 (generators st) key = r) as Hr.
      { rewrite Hturn by by eauto.
        rewrite decide_True; [done|]. apply elem_of_app. right. left. }
      rewrite (yielded_suffix _ _ _ _ Hpre) in Hr.
      rewrite Hpre, (remaining_Some _ _ _ Hkey), length_app. simpl. lia.
    + rewrite lookup_delete_ne in Hk by done. by apply Hgone.
  - intros q. rewrite Hpairs. unfold pulled.
    by setoid_rewrite Hyield.
Qed.

(** The generator that was served yields a tuple, which is new. *)
Lemma scheduler_inv_pull r st key queue p g :
  scheduler_inv gens0 r st →
  key_queue st = queue ++ [key] →
  generators st !! key = Some (p :: g) →
  scheduler_inv gens0 r
    {| generators := <[key:=g]> (generators st);
       key_queue := queue;
       pairs := pairs st ∪ {[fs p]} |}.
Proof.
  intros [Hnd Hq Hdom Hsuf Hturn Hgone Hpairs] Hqueue Hkey.
  rewrite Hqueue in Hnd, Hq, Hturn.
  apply NoDup_app in Hnd as (Hnd & Hnotin & _).
  assert (Hkeyq : key ∉ queue).
  { intros Hin. apply (Hnotin key Hin). left. }
  assert (Hother : ∀ k, key ≠ k →
    yielded gens0 (<[key:=g]> (generators st)) k
    = yielded gens0 (generators st) k).
  { intros k Hne. unfold yielded. by rewrite remaining_insert_ne. }
  destruct (Hsuf key) as [pre Hpre].
  rewrite (remaining_Some _ _ _ Hkey) in Hpre.
  assert (Hpre' : remaining gens0 key
                  = (pre ++ [p]) ++ remaining (<[key:=g]> (generators st)) key).
  { by rewrite remaining_insert_eq, <-app_assoc. }
  assert (Hr : length pre = r).
  { rewrite <-(yielded_suffix gens0 (generators st) key).
    - rewrite Hturn by by eauto.
      rewrite decide_True; [done|]. apply elem_of_app. right. left.
    - by rewrite (remaining_Some _ _ _ Hkey). }
  split; simpl.
  - done.
  - intros k Hk. rewrite lookup_insert_ne.
    + apply Hq, elem_of_app. by left.
    + by intros <-.
  - intros k Hk. destruct (decide (key = k)) as [<-|Hne].
    + specialize (Hdom key Hk). by rewrite Hkey in Hdom.
    + rewrite lookup_insert_ne by done. by apply Hdom.
  - intros k. destruct (decide (key = k)) as [<-|Hne]; [by eauto|].
    rewrite remaining_insert_ne by done. apply Hsuf.
  - intros k Hk. destruct (decide (key = k)) as [<-|Hne].
    + rewrite (yielded_suffix _ _ _ _ Hpre'), length_app. simpl.
      rewrite decide_False by done. lia.
    + rewrite lookup_insert_ne in Hk by done.
      rewrite (Hother k Hne), (Hturn k Hk).
      destruct (decide (k ∈ queue)) as [Hin|Hin].
      * rewrite decide_True; [done|]. apply elem_of_app. by left.
      * rewrite decide_False; [done|].
        intros [?|?%list_elem_of_singleton]%elem_of_app; by simplify_eq.
  - intros k Hk. destruct (decide (key = k)) as [<-|Hne].
    + by rewrite lookup_insert_eq in Hk.
    + rewrite lookup_insert_ne in Hk by done. by apply Hgone.
  - intros q. rewrite elem_of_union, elem_of_singleton, Hpairs. split.
    + intros [(k & p' & Hp' & ->)| ->].
      * exists k, p'. split; [|done].
        destruct (decide (key = k)) as [<-|Hne].
        -- rewrite (pulled_suffix _ _ _ _ Hpre').
           rewrite (pulled_suffix _ (generators st) _ pre) in Hp'.
           ++ apply elem_of_app. by left.
           ++ by rewrite (remaining_Some _ _ _ Hkey).
        -- unfold pulled in *. by rewrite Hother.
      * exists key, p. split; [|done].
        rewrite (pulled_suffix _ _ _ _ Hpre').
        apply elem_of_app. right. left.
    + intros (k & p' & Hp' & ->).
      destruct (decide (key = k)) as [<-|Hne].
      * rewrite (pulled_suffix _ _ _ _ Hpre') in Hp'.
        apply elem_of_app in Hp' as [Hp'|Hp'%list_elem_of_singleton].
        -- left. exists key, p'. split; [|done].
           rewrite (pulled_suffix _ (generators st) _ pre); [done|].
           by rewrite (remaining_Some _ _ _ Hkey).
        -- right. by subst.
      * left. exists k, p'. split; [|done].
        unfold pulled in *. by rewrite Hother in Hp'.
Qed.

Lemma loop_body_inv r st st' :
  scheduler_inv gens0 r st →
  loop_body st = Return st' →
  ∃ r', scheduler_inv gens0 r' st'.
Proof.
  intros Hinv Hbody. unfold loop_body in Hbody.
  assert (∃ r1 st1,
    scheduler_inv gens0 r1 st1
    ∧ generators st1 = generators st ∧ pairs st1 = pairs st
    ∧ key_queue st1
      = if bool_decide (length (key_queue st) = 0)
        then sorted (dict_keys (generators st)) else key_queue st)
    as (r1 & st1 & Hinv1 & Hg & Hp & Hq).
  { case_bool_decide as Hlen.
    - exists (S r),
        {| generators := generators st;
           key_queue := sorted (dict_keys (generators st));
           pairs := pairs st |}.
      split; [|done].
      apply scheduler_inv_refresh; [done|]. by apply nil_length_inv.
    - by exists r, st. }
  rewrite <-Hq, <-Hg, <-Hp in Hbody. clear Hq Hg Hp Hinv.
  destruct (list_pop (key_queue st1)) as [[key queue]|] eqn:Hpop; [|done].
  apply list_pop_Some in Hpop.
  destruct (generators st1 !! key) as [g|] eqn:Hkey;
    unfold dict_get in Hbody; rewrite Hkey in Hbody; [|done].
  simpl in Hbody. destruct g as [|[p1 p2] g].
  - injection Hbody as <-. exists r1. by apply scheduler_inv_delete.
  - case_bool_decide; [done|]. injection Hbody as <-. exists r1.
    by apply (scheduler_inv_pull r1 st1 key queue (p1, p2) g).
Qed.

Lemma elem_of_remaining gens k p :
  p ∈ remaining gens k → ∃ g, gens !! k = Some g ∧ p ∈ g.
Proof.
  unfold remaining. destruct (gens !! k) as [g|]; simpl.
  - by eauto.
  - by intros ?%elem_of_nil.
Qed.

Lemma continue_loop_size limit st :
  continue_loop limit st = true → 0 < size (generators st).
Proof.
  unfold continue_loop. destruct limit.
  - intros [Hsize _]%andb_prop. by apply bool_decide_eq_true in Hsize.
  - by intros ?%bool_decide_eq_true.
Qed.

(** Over generators that never repeat an unordered pair no pass of the
    loop raises. *)
Lemma loop_body_returns r st :
  distinct_pairs gens0 →
  scheduler_inv gens0 r st →
  0 < size (generators st) →
  ∃ st', loop_body st = Return st'.
Proof.
  intros [Hnd Hdisj] Hinv Hsize. unfold loop_body.
  assert (∃ r1 st1,
    scheduler_inv gens0 r1 st1
    ∧ generators st1 = generators st ∧ pairs st1 = pairs st
    ∧ key_queue st1
      = (if bool_decide (length (key_queue st) = 0)
         then sorted (dict_keys (generators st)) else key_queue st)
    ∧ key_queue st1 ≠ [])
    as (r1 & st1 & Hinv1 & Hg & Hp & Hq & Hne).
  { case_bool_decide as Hlen.
    - exists (S r),
        {| generators := generators st;
           key_queue := sorted (dict_keys (generators st));
           pairs := pairs st |}.
      split; [|do 3 (split; [done|])].
      + apply scheduler_inv_refresh; [done|]. by apply nil_length_inv.
      + simpl. intros Hnil.
        assert (dict_keys (generators st) = []) as Hkeys.
        { apply Permutation_nil_r. by rewrite <-Hnil, sorted_perm. }
        apply dict_keys_nil in Hkeys. rewrite Hkeys, map_size_empty in Hsize.
        lia.
    - exists r, st. do 4 (split; [done|]). intros Hnil.
      by rewrite Hnil in Hlen. }
  rewrite <-Hq, <-Hg, <-Hp. clear Hq Hg Hp Hinv Hsize.
  destruct (list_pop (key_queue st1)) as [[key queue]|] eqn:Hpop;
    [|by apply list_pop_None in Hpop].
  apply list_pop_Some in Hpop.
  destruct (inv_queue _ _ _ Hinv1 key) as [g Hkey].
  { rewrite Hpop. apply elem_of_app. right. left. }
  unfold dict_get. rewrite Hkey. simpl.
  destruct g as [|[p1 p2] g]; [by eauto|].
  case_bool_decide as Hdup; [exfalso|by eauto].
  apply (inv_pairs _ _ _ Hinv1) in Hdup as (k & p' & Hp' & Heq).
  change ({[p1; p2]}) with (fs (p1, p2)) in Heq.
  destruct (inv_suffix _ _ _ Hinv1 key) as [pre Hpre].
  rewrite (remaining_Some _ _ _ Hkey) in Hpre.
  destruct (elem_of_remaining gens0 key (p1, p2)) as (g0 & Hg0 & Hin0).
  { rewrite Hpre. apply elem_of_app. right. left. }
  destruct (elem_of_remaining gens0 k p') as (g0' & Hg0' & Hin0').
  { by apply elem_of_pulled in Hp'. }
  assert (key = k) as <- by eauto using eq_sym.
  rewrite (pulled_suffix _ (generators st1) key pre) in Hp'
    by by rewrite (remaining_Some _ _ _ Hkey).
  specialize (Hnd key g0 Hg0).
  rewrite (remaining_Some _ _ _ Hg0) in Hpre.
  rewrite Hpre, fmap_app in Hnd.
  apply NoDup_app in Hnd as (_ & Hnotin & _).
  apply (Hnotin (fs p')).
  - by apply list_elem_of_fmap_2.
  - rewrite fmap_cons, <-Heq. left.
Qed.

(** The measure that bounds the number of passes. *)

Lemma sum_list_Permutation (l1 l2 : list nat) :
  l1 ≡ₚ l2 → sum_list l1 = sum_list l2.
Proof. induction 1; simpl; lia. Qed.

Lemma passes_delete gens k g :
  gens !! k = Some g → passes gens = S (length g) + passes (delete k gens).
Proof.
  intros Hk. unfold passes.
  rewrite (sum_list_Permutation _
    ((λ kv, S (length kv.2)) <$> ((k, g) :: map_to_list (delete k gens)))).
  - done.
  - apply fmap_Permutation. symmetry. by apply map_to_list_delete.
Qed.

Lemma passes_insert gens k g :
  passes (<[k:=g]> gens) = S (length g) + passes (delete k gens).
Proof.
  unfold passes. rewrite <-insert_delete_eq.
  rewrite (sum_list_Permutation _
    ((λ kv, S (length kv.2)) <$> ((k, g) :: map_to_list (delete k gens)))).
  - done.
  - apply fmap_Permutation, map_to_list_insert, lookup_delete_eq.
Qed.

Lemma loop_body_passes st st' :
  loop_body st = Return st' →
  passes (generators st') < passes (generators st).
Proof.
  unfold loop_body.
  destruct (list_pop _) as [[key queue]|]; [|done].
  unfold dict_get.
  destruct (generators st !! key) as [g|] eqn:Hkey; [|done]. simpl.
  rewrite (passes_delete _ _ _ Hkey). destruct g as [|[p1 p2] g].
  - intros [= <-]. simpl. lia.
  - case_bool_decide; [done|]. intros [= <-]. simpl.
    rewrite passes_insert. lia.
Qed.

Lemma while_loop_inv limit fuel : ∀ r st st',
  scheduler_inv gens0 r st →
  while_loop limit fuel st = Return st' →
  (∃ r', scheduler_inv gens0 r' st') ∧ continue_loop limit st' = false.
Proof.
  induction fuel as [|fuel IH]; intros r st st' Hinv; simpl;
    destruct (continue_loop limit st) eqn:Hcont;
    try done; try (by intros [= <-]; eauto).
  destruct (loop_body st) as [st1| |] eqn:Hbody; try done. simpl.
  destruct (loop_body_inv _ _ _ Hinv Hbody) as [r1 Hinv1]. by eapply IH.
Qed.

Lemma while_loop_returns limit fuel : ∀ r st,
  distinct_pairs gens0 →
  scheduler_inv gens0 r st →
  passes (generators st) ≤ fuel →
  ∃ st', while_loop limit fuel st = Return st'.
Proof.
  induction fuel as [|fuel IH]; intros r st Hdist Hinv Hfuel; simpl;
    destruct (continue_loop limit st) eqn:Hcont; try (by eauto);
    apply continue_loop_size in Hcont;
    destruct (loop_body_returns _ _ Hdist Hinv Hcont) as [st1 Hbody];
    pose proof (loop_body_passes _ _ Hbody) as Hlt; [lia|].
  rewrite Hbody. simpl.
  destruct (loop_body_inv _ _ _ Hinv Hbody) as [r1 Hinv1].
  apply (IH r1); [done..|lia].
Qed.
End invariant.

(** The loop terminates within its fuel and returns, whatever the limit,
    when no unordered pair is produced twice. *)
Lemma exhaust_state_returns gens limit :
  distinct_pairs gens →
  ∃ st r, exhaust_state gens limit = Return st
          ∧ scheduler_inv gens r st
          ∧ continue_loop limit st = false.
Proof.
  intros Hdist. unfold exhaust_state.
  destruct (while_loop_returns gens limit (passes gens) 0 (initial_state gens))
    as [st Hst]; [done|apply scheduler_inv_init|done|].
  destruct (while_loop_inv gens limit _ 0 _ st (scheduler_inv_init gens) Hst)
    as [[r Hinv] Hcont].
  by exists st, r.
Qed.

Lemma exhaust_state_inv gens limit st :
  exhaust_state gens limit = Return st →
  (∃ r, scheduler_inv gens r st) ∧ continue_loop limit st = false.
Proof. apply (while_loop_inv gens limit _ 0), scheduler_inv_init. Qed.

(** The limit caps the number of collected pairs. *)

Lemma loop_body_pairs_size st st' :
  loop_body st = Return st' → size (pairs st') ≤ S (size (pairs st)).
Proof.
  unfold loop_body.
  destruct (list_pop _) as [[key queue]|]; [|done].
  destruct (dict_get (generators st) key) as [[|[p1 p2] g]| |]; simpl;
    try done.
  - intros [= <-]. simpl. lia.
  - case_bool_decide as Hnew; [done|]. intros [= <-]. simpl.
    rewrite size_union, size_singleton; [lia|].
    by apply disjoint_singleton_r.
Qed.

Lemma while_loop_limit n fuel : ∀ st st',
  while_loop (Some n) fuel st = Return st' →
  (Z.of_nat (size (pairs st)) ≤ Z.max 0 n)%Z →
  (Z.of_nat (size (pairs st')) ≤ Z.max 0 n)%Z.
Proof.
  induction fuel as [|fuel IH]; intros st st'; simpl;
    destruct (bool_decide (0 < size (generators st))
              && bool_decide (Z.of_nat (size (pairs st)) < n)%Z) eqn:Hcont;
    try done; try (by intros [= <-]).
  destruct (loop_body st) as [st1| |] eqn:Hbody; try done. simpl.
  intros Hloop _. apply (IH _ _ Hloop).
  apply andb_prop in Hcont as [_ Hlt%bool_decide_eq_true].
  apply loop_body_pairs_size in Hbody. lia.
Qed.

Lemma exhaust_state_limit gens n st :
  exhaust_state gens (Some n) = Return st →
  (Z.of_nat (size (pairs st)) ≤ Z.max 0 n)%Z.
Proof.
  intros Hst. apply (while_loop_limit _ _ _ _ Hst).
  change (pairs (initial_state gens)) with (∅ : gset (gset string)).
  rewrite size_empty. lia.
Qed.
End scheduler_facts.

(** ** Unordered pairs and the two kinds of generators *)

Lemma elem_of_fs p x : x ∈ fs p ↔ x = p.1 ∨ x = p.2.
Proof. unfold fs. set_solver. Qed.

Lemma fs_eq a b c d :
  fs (a, b) = fs (c, d) ↔ (a = c ∧ b = d) ∨ (a = d ∧ b = c).
Proof.
  split.
  - intros Heq.
    assert (Ha : a ∈ fs (c, d)) by (rewrite <-Heq; apply elem_of_fs; by left).
    assert (Hb : b ∈ fs (c, d)) by (rewrite <-Heq; apply elem_of_fs; by right).
    assert (Hc : c ∈ fs (a, b)) by (rewrite Heq; apply elem_of_fs; by left).
    assert (Hd : d ∈ fs (a, b)) by (rewrite Heq; apply elem_of_fs; by right).
    apply elem_of_fs in Ha, Hb, Hc, Hd. simpl in *.
    destruct Ha, Hb, Hc, Hd; subst; by auto.
  - unfold fs. intros [[-> ->]|[-> ->]]; simpl; [done|apply (comm_L (∪))].
Qed.

Lemma fs_swap a b : fs (a, b) = fs (b, a).
Proof. apply fs_eq. by right. Qed.

Lemma elements_fs a b : a ≠ b → elements (fs (a, b)) ≡ₚ [a; b].
Proof.
  intros Hne. unfold fs. simpl.
  rewrite elements_union_singleton by set_solver.
  by rewrite elements_singleton.
Qed.

Section generators_facts.
Context {A : Type}.
Implicit Types (v : list A).

Lemma elem_of_combinations2 v x y :
  (x, y) ∈ combinations2 v → x ∈ v ∧ y ∈ v.
Proof.
  induction v as [|z v IH]; simpl; [by intros ?%elem_of_nil|].
  intros [Hin|Hin]%elem_of_app.
  - apply list_elem_of_fmap in Hin as (y' & [= -> ->] & Hy).
    split; [left|by right].
  - destruct (IH Hin). split; by right.
Qed.

Lemma combinations2_ne v x y :
  NoDup v → (x, y) ∈ combinations2 v → x ≠ y.
Proof.
  induction 1 as [|z v Hz Hnd IH]; simpl; [by intros ?%elem_of_nil|].
  intros [Hin|Hin]%elem_of_app; [|by auto].
  apply list_elem_of_fmap in Hin as (y' & [= -> ->] & Hy). by intros ->.
Qed.

Lemma combinations2_complete v x y :
  x ∈ v → y ∈ v → x ≠ y →
  (x, y) ∈ combinations2 v ∨ (y, x) ∈ combinations2 v.
Proof.
  induction v as [|z v IH]; [by intros ?%elem_of_nil|].
  intros [->|Hx]%elem_of_cons [->|Hy]%elem_of_cons Hne; simpl.
  - done.
  - left. apply elem_of_app. left. by apply list_elem_of_fmap_2.
  - right. apply elem_of_app. left. by apply list_elem_of_fmap_2.
  - destruct (IH Hx Hy Hne); [left|right]; apply elem_of_app; by right.
Qed.

Lemma elem_of_product {B} (v1 : list A) (v2 : list B) x y :
  (x, y) ∈ product v1 v2 ↔ x ∈ v1 ∧ y ∈ v2.
Proof.
  unfold product. rewrite list_elem_of_bind. split.
  - intros (x' & Hin & Hx').
    apply list_elem_of_fmap in Hin as (y' & [= -> ->] & Hy). done.
  - intros [Hx Hy]. exists x. split; [|done]. by apply list_elem_of_fmap_2.
Qed.
End generators_facts.

Lemma combinations2_distinct (v : list string) :
  NoDup v → NoDup (fs <$> combinations2 v).
Proof.
  induction 1 as [|z v Hz Hnd IH]; simpl; [constructor|].
  rewrite fmap_app. apply NoDup_app. split; [|split; [|done]].
  - rewrite <-list_fmap_compose. apply NoDup_fmap_2_strong; [|done].
    intros a b Ha Hb [[_ ?]|[-> <-]]%fs_eq; done.
  - intros q Hq1 Hq2.
    apply list_elem_of_fmap in Hq1 as ([a b] & -> & Hin1).
    apply list_elem_of_fmap in Hin1 as (y & [= -> ->] & Hy).
    apply list_elem_of_fmap in Hq2 as ([c d] & Heq & Hin2).
    apply elem_of_combinations2 in Hin2 as [Hc Hd].
    apply fs_eq in Heq as [[-> _]|[-> _]]; done.
Qed.

Lemma product_distinct (v1 v2 : list string) :
  NoDup v1 → NoDup v2 → (∀ x, x ∈ v1 → x ∉ v2) →
  NoDup (fs <$> product v1 v2).
Proof.
  intros Hnd1 Hnd2 Hdisj. apply NoDup_fmap_2_strong.
  - intros [a b] [c d] [Ha Hb]%elem_of_product [Hc Hd]%elem_of_product
      [[-> ->]|[-> ->]]%fs_eq; [done|].
    by destruct (Hdisj d).
  - unfold product. apply NoDup_bind; [| |done].
    + intros x1 x2 p _ _ Hp1 Hp2.
      apply list_elem_of_fmap in Hp1 as (? & -> & _).
      apply list_elem_of_fmap in Hp2 as (? & [= -> _] & _). done.
    + intros x _. apply NoDup_fmap_2; [|done]. by intros ?? [= ->].
Qed.

(** ** The grouping stage *)

Section grouping_facts.
Context `{HashOrder}.
Variable m : gmap string string.

Lemma samples_loop_spec l : ∀ acc sps,
  samples_loop m l acc = Return sps →
  ∀ k, sps !!! k = acc !!! k ++ filter (λ x, m !! x = Some k) l.
Proof.
  induction l as [|x l IH]; intros acc sps; simpl.
  - intros [= <-] k. by rewrite app_nil_r.
  - unfold dict_get. destruct (m !! x) as [s|] eqn:Hx; [|done]. simpl.
    intros Hloop k. rewrite (IH _ _ Hloop k).
    destruct (decide (s = k)) as [<-|Hne].
    + rewrite lookup_total_insert_eq, filter_cons_True by done.
      by rewrite <-app_assoc.
    + rewrite lookup_total_insert_ne, filter_cons_False by congruence.
      done.
Qed.

Lemma samples_loop_returns l : ∀ acc,
  (∀ x, x ∈ l → is_Some (m !! x)) →
  ∃ sps, samples_loop m l acc = Return sps.
Proof.
  induction l as [|x l IH]; intros acc Hall; simpl; [by eauto|].
  destruct (Hall x) as [s Hs]; [left|].
  unfold dict_get. rewrite Hs. simpl. apply IH.
  intros y Hy. apply Hall. by right.
Qed.

Lemma samples_per_speaker_returns samples :
  (∀ x, x ∈ samples → is_Some (m !! x)) →
  ∃ sps, _samples_per_speaker samples m = Return sps.
Proof.
  intros Hall. apply samples_loop_returns. intros x Hx. apply Hall.
  by rewrite set_iter_perm, elem_of_elements in Hx.
Qed.

Lemma samples_loop_dom l : ∀ acc sps k,
  samples_loop m l acc = Return sps →
  is_Some (sps !! k) →
  is_Some (acc !! k) ∨ ∃ x, x ∈ l ∧ m !! x = Some k.
Proof.
  induction l as [|x l IH]; intros acc sps k; simpl.
  - intros [= <-]. by left.
  - unfold dict_get. destruct (m !! x) as [s|] eqn:Hx; [|done]. simpl.
    intros Hloop Hk. destruct (IH _ _ _ Hloop Hk) as [Hacc|(y & ? & ?)].
    + destruct (decide (s = k)) as [<-|Hne].
      * right. exists x. split; [left|done].
      * left. by rewrite lookup_insert_ne in Hacc.
    + right. exists y. split; [by right|done].
Qed.

Section grouped.
Variables (samples : gset string) (sps : gmap string (list string)).
Hypothesis Hsps : _samples_per_speaker samples m = Return sps.

Lemma samples_per_speaker_total k :
  sps !!! k = filter (λ x, m !! x = Some k) (set_iter samples).
Proof.
  rewrite (samples_loop_spec _ _ _ Hsps k).
  by rewrite lookup_total_empty.
Qed.

Lemma elem_of_samples_per_speaker k x :
  x ∈ sps !!! k ↔ x ∈ samples ∧ m !! x = Some k.
Proof.
  rewrite samples_per_speaker_total, list_elem_of_filter.
  rewrite set_iter_perm, elem_of_elements. tauto.
Qed.

Lemma samples_per_speaker_NoDup k : NoDup (sps !!! k).
Proof.
  rewrite samples_per_speaker_total. apply NoDup_filter.
  rewrite set_iter_perm. apply NoDup_elements.
Qed.

Lemma samples_per_speaker_wf : groups_wf sps.
Proof.
  split.
  - intros k v Hk. rewrite <-(lookup_total_correct _ _ _ Hk).
    apply samples_per_speaker_NoDup.
  - intros k1 k2 v1 v2 x Hk1 Hk2.
    rewrite <-(lookup_total_correct _ _ _ Hk1).
    rewrite <-(lookup_total_correct _ _ _ Hk2).
    intros [_ H1]%elem_of_samples_per_speaker
           [_ H2]%elem_of_samples_per_speaker.
    congruence.
Qed.

Lemma samples_per_speaker_dom k :
  is_Some (sps !! k) → ∃ x, x ∈ samples ∧ m !! x = Some k.
Proof.
  intros Hk. destruct (samples_loop_dom _ _ _ _ Hsps Hk) as [Hin|Hin].
  - rewrite lookup_empty in Hin. by destruct Hin.
  - destruct Hin as (x & Hx & ?). exists x. split; [|done].
    by rewrite set_iter_perm, elem_of_elements in Hx.
Qed.

Lemma samples_per_speaker_Some k x :
  x ∈ samples → m !! x = Some k → is_Some (sps !! k).
Proof.
  intros Hx Hk. destruct (sps !! k) as [v|] eqn:E; [by eauto|].
  assert (x ∈ sps !!! k) as Hin by by apply elem_of_samples_per_speaker.
  rewrite lookup_total_alt, E in Hin. by apply elem_of_nil in Hin.
Qed.
End grouped.
End grouping_facts.

Lemma groups_wf_total sps k : groups_wf sps → NoDup (sps !!! k).
Proof.
  intros [Hnd _]. rewrite lookup_total_alt.
  destruct (sps !! k) as [v|] eqn:E; simpl; [by eauto|constructor].
Qed.

Lemma groups_wf_disjoint sps k1 k2 x :
  groups_wf sps → x ∈ sps !!! k1 → x ∈ sps !!! k2 → k1 = k2.
Proof.
  intros [_ Hdisj]. rewrite !lookup_total_alt.
  destruct (sps !! k1) as [v1|] eqn:E1; simpl; [|by intros ?%elem_of_nil].
  destruct (sps !! k2) as [v2|] eqn:E2; simpl; [|by intros _ ?%elem_of_nil].
  by eauto.
Qed.

(** ** Positive mode: one generator per speaker *)

Lemma positive_generators_distinct sps :
  groups_wf sps → distinct_pairs (combinations2 <$> sps).
Proof.
  intros [Hnd Hdisj]. split.
  - intros k g. rewrite lookup_fmap.
    destruct (sps !! k) as [v|] eqn:Hk; [|done]. intros [= <-].
    apply combinations2_distinct. by eauto.
  - intros k1 k2 g1 g2 [a b] [c d]. rewrite !lookup_fmap.
    destruct (sps !! k1) as [v1|] eqn:Hk1; [|done]. intros [= <-].
    destruct (sps !! k2) as [v2|] eqn:Hk2; [|done]. intros [= <-].
    intros [Ha _]%elem_of_combinations2 [Hc Hd]%elem_of_combinations2.
    intros [[-> _]|[-> _]]%fs_eq; by eauto.
Qed.

(** ** Negative mode: one generator per qualifying speaker pair *)

Lemma str_lt_irrefl (a : string) : py_lt a a = false.
Proof.
  unfold py_lt, str_ord, String.ltb.
  pose proof (String.compare_antisym a a) as Hanti.
  by destruct (String.compare a a).
Qed.

Lemma str_lt_asym (a b : string) : py_lt a b = true → py_lt b a = false.
Proof.
  unfold py_lt, str_ord, String.ltb. rewrite (String.compare_antisym b a).
  by destruct (String.compare a b).
Qed.

Lemma str_lt_total (a b : string) :
  a ≠ b → py_lt a b = true ∨ py_lt b a = true.
Proof.
  intros Hne. unfold py_lt, str_ord, String.ltb.
  rewrite (String.compare_antisym b a).
  destruct (String.compare a b) eqn:Hcmp; simpl; auto.
  by apply String.compare_eq_iff in Hcmp.
Qed.

Lemma sorted_tuple_lt a b :
  py_lt a b = true → sorted_tuple a b = (a, b) ∧ sorted_tuple b a = (a, b).
Proof.
  intros Hlt. unfold sorted_tuple. by rewrite Hlt, (str_lt_asym _ _ Hlt).
Qed.

Lemma sorted_tuple_cases k1 k2 :
  k1 ≠ k2 →
  ∃ a b, sorted_tuple k1 k2 = (a, b) ∧ py_lt a b = true
         ∧ ((a = k1 ∧ b = k2) ∨ (a = k2 ∧ b = k1)).
Proof.
  intros [Hlt|Hlt]%str_lt_total; destruct (sorted_tuple_lt _ _ Hlt) as [H1 H2].
  - exists k1, k2. by auto.
  - exists k2, k1. by auto.
Qed.

Lemma qualifies_sym ess gm k1 k2 : qualifies ess gm k1 k2 → qualifies ess gm k2 k1.
Proof.
  intros [Hne Hg]. split; [done|]. intros Hess.
  destruct (Hg Hess) as (g & ? & ?). by eauto.
Qed.

Section negative_facts.
Context `{HashOrder}.
Variables (ess : bool) (gm : gmap string string).

Lemma skip_combination_Return k1 k2 b :
  skip_combination ess gm k1 k2 = Return b →
  (b = false ↔ qualifies ess gm k1 k2).
Proof.
  unfold skip_combination, qualifies, dict_get. case_bool_decide as Hk.
  { intros [= <-]. split; [done|]. by intros [? _]. }
  destruct ess.
  - destruct (gm !! k1) as [g1|]; [|done].
    destruct (gm !! k2) as [g2|]; [|done]. simpl. intros [= <-].
    case_bool_decide as Hg; split; try done.
    + intros [_ Hq]. destruct (Hq eq_refl) as (g & [= ->] & [= ->]). done.
    + intros _. split; [done|]. intros _. exists g1.
      split; [done|]. f_equal. by destruct (decide (g1 = g2)).
  - intros [= <-]. by split.
Qed.

Lemma skip_combination_outcome k1 k2 :
  (∃ b, skip_combination ess gm k1 k2 = Return b)
  ∨ skip_combination ess gm k1 k2 = Raise KeyError.
Proof.
  unfold skip_combination, dict_get. case_bool_decide; [by eauto|].
  destruct ess; [|by eauto].
  destruct (gm !! k1); [|by right].
  destruct (gm !! k2); [|by right]. by eauto.
Qed.

Lemma skip_combination_returns k1 k2 :
  (ess = true → is_Some (gm !! k1) ∧ is_Some (gm !! k2)) →
  ∃ b, skip_combination ess gm k1 k2 = Return b.
Proof.
  intros Hg. unfold skip_combination, dict_get.
  case_bool_decide; [by eauto|]. destruct ess; [|by eauto].
  destruct (Hg eq_refl) as [[g1 ->] [g2 ->]]. by eauto.
Qed.

Lemma inner_loop_spec k1 keys : ∀ acc S,
  inner_loop ess gm k1 keys acc = Return S →
  ∀ c, c ∈ S ↔
    c ∈ acc ∨ ∃ k2, k2 ∈ keys ∧ qualifies ess gm k1 k2
                    ∧ c = sorted_tuple k1 k2.
Proof.
  induction keys as [|k2 keys IH]; intros acc S; simpl.
  - intros [= <-] c. split; [by auto|].
    by intros [?|(? & ?%elem_of_nil & _)].
  - destruct (skip_combination ess gm k1 k2) as [b| |] eqn:Hskip; try done.
    simpl. intros Hloop c. rewrite (IH _ _ Hloop c).
    apply skip_combination_Return in Hskip. destruct b.
    + split.
      * intros [?|(k & ? & ? & ?)]; [by left|].
        right. exists k. split; [by right|done].
      * intros [?|(k & [->|?]%elem_of_cons & Hq & ?)]; [by left| |].
        -- by apply Hskip in Hq.
        -- right. by exists k.
    + rewrite elem_of_union, elem_of_singleton. split.
      * intros [[?| ->]|(k & ? & ? & ?)]; [by left| |].
        -- right. exists k2. split; [left|]. split; [by apply Hskip|done].
        -- right. exists k. split; [by right|done].
      * intros [?|(k & [->|?]%elem_of_cons & Hq & ?)]; [by auto|by auto|].
        right. by exists k.
Qed.

Lemma inner_loop_outcome k1 keys : ∀ acc,
  (∃ S, inner_loop ess gm k1 keys acc = Return S)
  ∨ inner_loop ess gm k1 keys acc = Raise KeyError.
Proof.
  induction keys as [|k2 keys IH]; intros acc; simpl; [by eauto|].
  destruct (skip_combination_outcome k1 k2) as [[b ->]| ->]; [|by right].
  apply IH.
Qed.

Lemma inner_loop_returns k1 keys : ∀ acc,
  (ess = true → ∀ k, k = k1 ∨ k ∈ keys → is_Some (gm !! k)) →
  ∃ S, inner_loop ess gm k1 keys acc = Return S.
Proof.
  induction keys as [|k2 keys IH]; intros acc Hg; simpl; [by eauto|].
  destruct (skip_combination_returns k1 k2) as [b ->].
  { intros Hess. split; apply Hg; auto. right. left. }
  apply IH. intros Hess k [->|?]; apply Hg; auto. right. by right.
Qed.

Lemma outer_loop_spec keys1 keys2 : ∀ acc S,
  outer_loop ess gm keys1 keys2 acc = Return S →
  ∀ c, c ∈ S ↔
    c ∈ acc ∨ ∃ k1 k2, k1 ∈ keys1 ∧ k2 ∈ keys2 ∧ qualifies ess gm k1 k2
                       ∧ c = sorted_tuple k1 k2.
Proof.
  induction keys1 as [|k1 keys1 IH]; intros acc S; simpl.
  - intros [= <-] c. split; [by auto|].
    by intros [?|(? & ? & ?%elem_of_nil & _)].
  - destruct (inner_loop ess gm k1 keys2 acc) as [S1| |] eqn:Hin; try done.
    simpl. intros Hloop c.
    rewrite (IH _ _ Hloop c), (inner_loop_spec _ _ _ _ Hin c). split.
    + intros [[?|(k2 & ? & ? & ?)]|(k & k2 & ? & ? & ? & ?)]; [by left| |].
      * right. exists k1, k2. split; [left|done].
      * right. exists k, k2. split; [by right|done].
    + intros [?|(k & k2 & [->|?]%elem_of_cons & ? & ? & ?)]; [by auto| |].
      * left. right. by exists k2.
      * right. by exists k, k2.
Qed.

Lemma outer_loop_outcome keys1 keys2 : ∀ acc,
  (∃ S, outer_loop ess gm keys1 keys2 acc = Return S)
  ∨ outer_loop ess gm keys1 keys2 acc = Raise KeyError.
Proof.
  induction keys1 as [|k1 keys1 IH]; intros acc; simpl; [by eauto|].
  destruct (inner_loop_outcome k1 keys2 acc) as [[S ->]| ->]; [|by right].
  apply IH.
Qed.

Lemma outer_loop_returns keys1 keys2 : ∀ acc,
  (ess = true → ∀ k, k ∈ keys1 ∨ k ∈ keys2 → is_Some (gm !! k)) →
  ∃ S, outer_loop ess gm keys1 keys2 acc = Return S.
Proof.
  induction keys1 as [|k1 keys1 IH]; intros acc Hg; simpl; [by eauto|].
  destruct (inner_loop_returns k1 keys2 acc) as [S ->].
  { intros Hess k [->|?]; apply Hg; auto. left. left. }
  apply IH. intros Hess k [?|?]; apply Hg; auto. left. by right.
Qed.

Lemma lookup_negative_generators (sps : gmap string (list string))
    (S : gset (string * string)) c :
  negative_generators sps S !! c
  = if decide (c ∈ S)
    then Some (product (sps !!! c.1) (sps !!! c.2)) else None.
Proof.
  unfold negative_generators.
  set (f := λ c : string * string,
              (c, product (sps !!! c.1) (sps !!! c.2))).
  assert (Hfst : (f <$> set_iter S).*1 = set_iter S).
  { rewrite <-list_fmap_compose. apply list_fmap_id. }
  destruct (decide (c ∈ S)) as [Hc|Hc].
  - apply elem_of_list_to_map_1.
    + rewrite Hfst, set_iter_perm. apply NoDup_elements.
    + apply (list_elem_of_fmap_2 f).
      by rewrite set_iter_perm, elem_of_elements.
  - apply not_elem_of_list_to_map_1.
    by rewrite Hfst, set_iter_perm, elem_of_elements.
Qed.

Lemma negative_generators_distinct (sps : gmap string (list string))
    (S : gset (string * string)) :
  groups_wf sps →
  (∀ a b, (a, b) ∈ S → py_lt a b = true) →
  distinct_pairs (negative_generators sps S).
Proof.
  intros Hwf Hlt. split.
  - intros [a b] g. rewrite lookup_negative_generators.
    case_decide as Hc; [|done]. intros [= <-]. simpl.
    apply product_distinct; try by apply groups_wf_total.
    intros x Ha Hb. pose proof (groups_wf_disjoint _ _ _ _ Hwf Ha Hb) as ->.
    specialize (Hlt _ _ Hc). by rewrite str_lt_irrefl in Hlt.
  - intros [a b] [a' b'] g g' [x y] [x' y'].
    rewrite !lookup_negative_generators.
    case_decide as Hc; [|done]. intros [= <-].
    case_decide as Hc'; [|done]. intros [= <-]. simpl.
    intros [Hx Hy]%elem_of_product [Hx' Hy']%elem_of_product.
    intros [[-> ->]|[-> ->]]%fs_eq.
    + f_equal; by eapply groups_wf_disjoint.
    + pose proof (groups_wf_disjoint _ _ _ _ Hwf Hx Hy') as ->.
      pose proof (groups_wf_disjoint _ _ _ _ Hwf Hy Hx') as ->.
      apply Hlt in Hc, Hc'. by rewrite (str_lt_asym _ _ Hc) in Hc'.
Qed.
End negative_facts.

(** ** What the scheduler collects *)

Section collected.
Context `{Countable K} `{PyOrd K}.
Implicit Types (gens : gmap K (list (string * string))).

Lemma exhaust_pairs_sound gens limit st q :
  exhaust_state gens limit = Return st →
  q ∈ pairs st →
  ∃ k g p, gens !! k = Some g ∧ p ∈ g ∧ q = fs p.
Proof.
  intros [[r Hinv] _]%exhaust_state_inv Hq.
  apply (inv_pairs _ _ _ Hinv) in Hq as (k & p & Hp & ->).
  apply elem_of_pulled, elem_of_remaining in Hp as (g & ? & ?).
  by exists k, g, p.
Qed.

Lemma exhaust_pairs_complete gens st k g p :
  exhaust_state gens None = Return st →
  gens !! k = Some g → p ∈ g →
  fs p ∈ pairs st.
Proof.
  intros [[r Hinv] Hcont]%exhaust_state_inv Hk Hp.
  simpl in Hcont. apply bool_decide_eq_false in Hcont.
  assert (generators st = ∅) as Hempty.
  { apply map_size_empty_inv. lia. }
  apply (inv_pairs _ _ _ Hinv). exists k, p. split; [|done].
  rewrite (pulled_suffix _ _ _ g); [done|].
  rewrite (remaining_Some _ _ _ Hk), remaining_None, app_nil_r; [done|].
  by rewrite Hempty.
Qed.

End collected.

(** ** From collected pairs to sorted trials *)

Section trials_facts.
Context `{HashOrder}.
Variable trial_str : SpeakerTrial → string.

Lemma trials_of_two b (l : list (gset string)) :
  Forall (λ q, ∃ x y, x ≠ y ∧ q = fs (x, y)) l →
  ∃ ts, trials_of b (set_iter <$> l) = Return ts
        ∧ trial_pair <$> ts = l
        ∧ Forall (λ t, same_speaker t = b) ts.
Proof.
  induction 1 as [|q l (x & y & Hne & ->) _ (ts & Hts & Hpairs & Hflags)].
  { exists []. by repeat split. }
  rewrite fmap_cons. cbn [trials_of].
  assert ([x; y] ≡ₚ set_iter (fs (x, y))) as Hperm.
  { by rewrite set_iter_perm, elements_fs. }
  apply Permutation_length_2_inv in Hperm as [Heq|Heq];
    rewrite Heq, Hts; eexists; (split; [done|]);
    (split; [|by constructor]); rewrite fmap_cons, Hpairs; f_equal.
  apply fs_swap.
Qed.

(** Wrapping the collected pairs in a set of trials, as both passes of
    [generate_speaker_trials] do, and sorting that set. *)
Lemma trial_set_spec b (P : gset (gset string)) :
  (∀ q, q ∈ P → ∃ x y, x ≠ y ∧ q = fs (x, y)) →
  ∃ T, trial_set b (set_iter <$> set_iter P) = Return T
       ∧ trial_pair <$> sorted_by trial_str (set_iter T) ≡ₚ elements P
       ∧ Forall (λ t, same_speaker t = b) (sorted_by trial_str (set_iter T)).
Proof.
  intros Htwo. unfold trial_set.
  destruct (trials_of_two b (set_iter P)) as (ts & -> & Hpairs & Hflags).
  { apply Forall_forall. intros q Hq. apply Htwo.
    by rewrite set_iter_perm, elem_of_elements in Hq. }
  eexists. split; [done|].
  assert (NoDup ts) as Hnd.
  { apply (NoDup_fmap_1 trial_pair). rewrite Hpairs, set_iter_perm.
    apply NoDup_elements. }
  assert (sorted_by trial_str (set_iter (list_to_set ts : gset SpeakerTrial))
          ≡ₚ ts) as Hperm.
  { by rewrite sorted_by_perm, set_iter_perm, elements_list_to_set. }
  split.
  - by rewrite Hperm, Hpairs, set_iter_perm.
  - by rewrite Hperm.
Qed.
End trials_facts.

(** ** The two passes of [generate_speaker_trials] *)

Lemma same_speaker_pair_two samples m q :
  same_speaker_pair samples m q → ∃ x y, x ≠ y ∧ q = fs (x, y).
Proof. intros (x & y & s & _ & _ & ? & _ & _ & ->). by exists x, y. Qed.

Lemma cross_speaker_pair_two samples m gm ess q :
  cross_speaker_pair samples m gm ess q → ∃ x y, x ≠ y ∧ q = fs (x, y).
Proof.
  intros (x & y & s1 & s2 & _ & _ & Hx & Hy & [Hne _] & ->).
  exists x, y. split; [|done]. intros ->. congruence.
Qed.

Lemma same_cross_disjoint samples m gm ess q :
  same_speaker_pair samples m q → cross_speaker_pair samples m gm ess q → False.
Proof.
  intros (x & y & s & _ & _ & _ & Hx & Hy & ->).
  intros (x' & y' & s1 & s2 & _ & _ & Hx' & Hy' & [Hne _] & Heq).
  apply (fs_eq x y x' y') in Heq as [[-> ->]|[-> ->]]; congruence.
Qed.

Section passes_facts.
Context `{HashOrder}.
Variables (samples : gset string) (m gm : gmap string string) (ess : bool).
Variable sps : gmap string (list string).
Hypothesis Hsps : _samples_per_speaker samples m = Return sps.

Lemma positive_generators_proper : proper_tuples (combinations2 <$> sps).
Proof.
  intros k g x y. rewrite lookup_fmap.
  destruct (sps !! k) as [v|] eqn:Hk; [|done]. intros [= <-].
  apply combinations2_ne.
  by apply (samples_per_speaker_wf m samples sps Hsps) in Hk.
Qed.

Lemma positive_pairs_spec limit :
  ∃ st, exhaust_state (combinations2 <$> sps) limit = Return st
        ∧ (∀ q, q ∈ pairs st → same_speaker_pair samples m q)
        ∧ (limit = None →
           ∀ q, same_speaker_pair samples m q → q ∈ pairs st).
Proof.
  pose proof (samples_per_speaker_wf m samples sps Hsps) as Hwf.
  destruct (exhaust_state_returns (combinations2 <$> sps) limit)
    as (st & _ & Hst & _); [by apply positive_generators_distinct|].
  exists st. split; [done|]. split.
  - intros q Hq.
    destruct (exhaust_pairs_sound _ _ _ _ Hst Hq)
      as (k & g & [x y] & Hk & Hp & ->).
    pose proof (positive_generators_proper k g x y Hk Hp) as Hne.
    rewrite lookup_fmap in Hk.
    destruct (sps !! k) as [v|] eqn:Hv; [|done]. injection Hk as <-.
    apply elem_of_combinations2 in Hp as [Hx Hy].
    rewrite <-(lookup_total_correct _ _ _ Hv) in Hx, Hy.
    apply (elem_of_samples_per_speaker m samples sps Hsps) in Hx as [? ?].
    apply (elem_of_samples_per_speaker m samples sps Hsps) in Hy as [? ?].
    by exists x, y, k.
  - intros -> q (x & y & s & Hx & Hy & Hne & Hmx & Hmy & ->).
    destruct (samples_per_speaker_Some m samples sps Hsps s x Hx Hmx)
      as [v Hv].
    assert (x ∈ v ∧ y ∈ v) as [Hxv Hyv].
    { rewrite <-(lookup_total_correct _ _ _ Hv).
      split; by apply (elem_of_samples_per_speaker m samples sps Hsps). }
    assert ((combinations2 <$> sps) !! s = Some (combinations2 v)) as Hk.
    { by rewrite lookup_fmap, Hv. }
    destruct (combinations2_complete v x y Hxv Hyv Hne) as [Hp|Hp].
    + apply (exhaust_pairs_complete _ _ _ _ _ Hst Hk Hp).
    + change ({[x; y]}) with (fs (x, y)). rewrite fs_swap.
      apply (exhaust_pairs_complete _ _ _ _ _ Hst Hk Hp).
Qed.

Lemma speaker_pair_set_spec (S : gset (string * string)) keys a b :
  outer_loop ess gm keys keys ∅ = Return S →
  (a, b) ∈ S →
  py_lt a b = true ∧ a ∈ keys ∧ b ∈ keys ∧ qualifies ess gm a b.
Proof.
  intros HS Hin. apply (outer_loop_spec _ _ _ _ _ _ HS) in Hin
    as [Hin|(k1 & k2 & Hk1 & Hk2 & Hq & Heq)].
  { by apply not_elem_of_empty in Hin. }
  destruct (sorted_tuple_cases k1 k2) as (a' & b' & Ht & Hlt & Hcases).
  { by destruct Hq. }
  rewrite Ht in Heq. injection Heq as -> ->.
  destruct Hcases as [[-> ->]|[-> ->]]; [done|].
  by apply qualifies_sym in Hq.
Qed.

Lemma speaker_pair_set_returns :
  valid_input samples m gm ess →
  ∃ S, outer_loop ess gm (sorted (dict_keys sps)) (sorted (dict_keys sps)) ∅
       = Return S.
Proof.
  intros [_ Hgender]. apply outer_loop_returns. intros Hess k Hk.
  assert (k ∈ sorted (dict_keys sps)) as Hin by by destruct Hk.
  apply elem_of_sorted_dict_keys in Hin.
  destruct (samples_per_speaker_dom m samples sps Hsps k Hin)
    as (x & ? & ?). by eauto.
Qed.

Lemma negative_pairs_spec (limit : option Z) (S : gset (string * string)) :
  outer_loop ess gm (sorted (dict_keys sps)) (sorted (dict_keys sps)) ∅
  = Return S →
  ∃ st,
    exhaust_state (negative_generators sps S) limit = Return st
    ∧ (∀ q, q ∈ pairs st → cross_speaker_pair samples m gm ess q)
    ∧ (limit = None →
       ∀ q, cross_speaker_pair samples m gm ess q → q ∈ pairs st).
Proof.
  intros HS.
  pose proof (samples_per_speaker_wf m samples sps Hsps) as Hwf.
  set (keys := sorted (dict_keys sps)) in *.
  destruct (exhaust_state_returns (negative_generators sps S) limit)
    as (st & _ & Hst & _).
  { apply negative_generators_distinct; [done|]. intros a b Hin.
    by destruct (speaker_pair_set_spec _ _ _ _ HS Hin). }
  exists st. split; [done|]. split.
  - intros q Hq.
    destruct (exhaust_pairs_sound _ _ _ _ Hst Hq)
      as ([a b] & g & [x y] & Hk & Hp & ->).
    rewrite lookup_negative_generators in Hk.
    case_decide as Hc; [|done]. injection Hk as <-. simpl in Hp.
    apply elem_of_product in Hp as [Hx Hy].
    apply (elem_of_samples_per_speaker m samples sps Hsps) in Hx as [? ?].
    apply (elem_of_samples_per_speaker m samples sps Hsps) in Hy as [? ?].
    destruct (speaker_pair_set_spec _ _ _ _ HS Hc) as (_ & _ & _ & Hq').
    by exists x, y, a, b.
  - intros -> q (x & y & s1 & s2 & Hx & Hy & Hmx & Hmy & Hq & ->).
    assert (s1 ∈ keys ∧ s2 ∈ keys) as [Hs1 Hs2].
    { split; apply elem_of_sorted_dict_keys.
      - apply (samples_per_speaker_Some m samples sps Hsps s1 x Hx Hmx).
      - apply (samples_per_speaker_Some m samples sps Hsps s2 y Hy Hmy). }
    destruct (sorted_tuple_cases s1 s2) as (a & b & Ht & Hlt & Hcases).
    { by destruct Hq. }
    assert ((a, b) ∈ S) as Hc.
    { apply (outer_loop_spec _ _ _ _ _ _ HS). right.
      exists s1, s2. by rewrite Ht. }
    assert (negative_generators sps S !! (a, b)
            = Some (product (sps !!! a) (sps !!! b))) as Hk.
    { rewrite lookup_negative_generators. by rewrite decide_True. }
    destruct Hcases as [[-> ->]|[-> ->]].
    + apply (exhaust_pairs_complete _ _ _ _ (x, y) Hst Hk).
      apply elem_of_product.
      split; by apply (elem_of_samples_per_speaker m samples sps Hsps).
    + change ({[x; y]}) with (fs (x, y)). rewrite fs_swap.
      apply (exhaust_pairs_complete _ _ _ _ (y, x) Hst Hk).
      apply elem_of_product.
      split; by apply (elem_of_samples_per_speaker m samples sps Hsps).
Qed.
End passes_facts.

(** ** The outcome of [generate_speaker_trials] *)

Section generate_facts.
Context `{HashOrder}.
Variable trial_str : SpeakerTrial → string.
Variables (samples : gset string) (m gm : gmap string string) (ess : bool).
Variable limit : option Z.

Lemma samples_loop_outcome l : ∀ acc,
  (∃ sps, samples_loop m l acc = Return sps)
  ∨ samples_loop m l acc = Raise KeyError.
Proof.
  induction l as [|x l IH]; intros acc; simpl; [by eauto|].
  unfold dict_get. destruct (m !! x); [apply IH|by right].
Qed.

(** The function returns the positive trials followed by the negative
    ones, or a lookup fails; a lookup only fails on an input that is not
    valid. *)
Lemma generate_outcome :
  match generate_speaker_trials trial_str samples m gm ess limit with
  | Return out =>
    ∃ pos neg, out = pos ++ neg
               ∧ trial_list_spec samples m gm ess limit pos neg
  | Raise e => e = KeyError ∧ ¬ valid_input samples m gm ess
  | OutOfFuel => False
  end.
Proof.
  unfold generate_speaker_trials.
  destruct (samples_loop_outcome (set_iter samples) ∅) as [[sps Hsps]|Hsps];
    unfold _samples_per_speaker at 1; rewrite Hsps; simpl.
  2:{ split; [done|]. intros [Hall _].
      destruct (samples_per_speaker_returns m samples Hall) as [sps Hsps'].
      unfold _samples_per_speaker in Hsps'. congruence. }
  destruct (positive_pairs_spec samples m sps Hsps limit)
    as (stp & Hstp & Hpsound & Hpcomplete).
  unfold _positive_pairs, _exhaust_pairs_iterator_dictionary.
  rewrite Hstp. simpl.
  destruct (trial_set_spec trial_str true (pairs stp))
    as (Tp & -> & Hpp & Hpf).
  { intros q Hq. by eapply same_speaker_pair_two, Hpsound. }
  simpl. unfold _negative_pairs.
  destruct (outer_loop_outcome ess gm (sorted (dict_keys sps))
              (sorted (dict_keys sps)) ∅) as [[S HS]|HS]; rewrite HS; simpl.
  2:{ split; [done|]. intros Hvalid.
      destruct (speaker_pair_set_returns samples m gm ess sps Hsps Hvalid)
        as [S HS']. congruence. }
  destruct (negative_pairs_spec samples m gm ess sps Hsps limit S HS)
    as (stn & Hstn & Hnsound & Hncomplete).
  unfold _exhaust_pairs_iterator_dictionary. rewrite Hstn. simpl.
  destruct (trial_set_spec trial_str false (pairs stn))
    as (Tn & -> & Hnp & Hnf).
  { intros q Hq. by eapply cross_speaker_pair_two, Hnsound. }
  simpl. eexists _, _. split; [done|]. split; try done.
  - rewrite Hpp. apply NoDup_elements.
  - rewrite Hnp. apply NoDup_elements.
  - intros q. rewrite Hpp, elem_of_elements. apply Hpsound.
  - intros q. rewrite Hnp, elem_of_elements. apply Hnsound.
  - intros Hlim q Hq. rewrite Hpp, elem_of_elements. by apply Hpcomplete.
  - intros Hlim q Hq. rewrite Hnp, elem_of_elements. by apply Hncomplete.
  - intros n ->. rewrite <-(length_fmap trial_pair), Hpp.
    apply (exhaust_state_limit _ _ _ Hstp).
  - intros n ->. rewrite <-(length_fmap trial_pair), Hnp.
    apply (exhaust_state_limit _ _ _ Hstn).
Qed.

Lemma generate_returns :
  valid_input samples m gm ess →
  ∃ pos neg,
    generate_speaker_trials trial_str samples m gm ess limit
    = Return (pos ++ neg)
    ∧ trial_list_spec samples m gm ess limit pos neg.
Proof.
  intros Hvalid. pose proof generate_outcome as Hout.
  destruct (generate_speaker_trials _ _ _ _ _ _) as [out|e|]; [|by destruct Hout|done].
  destruct Hout as (pos & neg & -> & Hspec). by exists pos, neg.
Qed.
End generate_facts.

(** ** Correctness of the trial list *)

Lemma filter_flags_l (b : bool) (l1 l2 : list SpeakerTrial) :
  Forall (λ t, same_speaker t = b) l1 →
  Forall (λ t, same_speaker t = negb b) l2 →
  filter (λ t, same_speaker t = b) (l1 ++ l2) = l1.
Proof.
  intros H1 H2. rewrite filter_app.
  replace (filter (λ t, same_speaker t = b) l2) with (@nil SpeakerTrial).
  - rewrite app_nil_r. induction H1 as [|t l Ht _ IH]; [done|].
    by rewrite filter_cons_True, IH.
  - induction H2 as [|t l Ht _ IH]; [done|].
    rewrite filter_cons_False; [done|]. rewrite Ht. by destruct b.
Qed.

Lemma filter_flags_r (b : bool) (l1 l2 : list SpeakerTrial) :
  Forall (λ t, same_speaker t = negb b) l1 →
  Forall (λ t, same_speaker t = b) l2 →
  filter (λ t, same_speaker t = b) (l1 ++ l2) = l2.
Proof.
  intros H1 H2. rewrite filter_app.
  replace (filter (λ t, same_speaker t = b) l1) with (@nil SpeakerTrial).
  - simpl. induction H2 as [|t l Ht _ IH]; [done|].
    by rewrite filter_cons_True, IH.
  - induction H1 as [|t l Ht _ IH]; [done|].
    rewrite filter_cons_False; [done|]. rewrite Ht. by destruct b.
Qed.

Lemma elem_of_speaker_samples samples m s x :
  x ∈ speaker_samples samples m s ↔ x ∈ samples ∧ m !! x = Some s.
Proof. unfold speaker_samples. rewrite elem_of_filter. tauto. Qed.

Lemma speaker_samples_two samples m s x y :
  x ≠ y → x ∈ speaker_samples samples m s → y ∈ speaker_samples samples m s →
  2 ≤ size (speaker_samples samples m s).
Proof.
  intros Hne Hx Hy.
  assert (size ({[x; y]} : gset string) = 2) as <-.
  { rewrite size_union, !size_singleton; [done|].
    by apply disjoint_singleton_l, not_elem_of_singleton. }
  apply subseteq_size. intros z [->%elem_of_singleton| ->%elem_of_singleton]%elem_of_union; done.
Qed.

Section correctness.
Context `{HashOrder}.
Variable trial_str : SpeakerTrial → string.
Variables (samples : gset string) (m gm : gmap string string) (ess : bool).

(** C2. Without a limit, the positive trials of the returned list are,
    each exactly once, the unordered pairs of two different samples of
    one speaker; so a speaker that occurs in a positive trial has at
    least two samples.  (The function raises only [KeyError], and only on
    an input with a missing speaker or gender.) *)
Theorem positive_correctness :
  match generate_speaker_trials trial_str samples m gm ess None with
  | Return out =>
    let pos := filter (λ t, same_speaker t = true) out in
    NoDup (trial_pair <$> pos)
    ∧ (∀ x y, {[x; y]} ∈ trial_pair <$> pos ↔
         x ≠ y ∧ ∃ s, x ∈ speaker_samples samples m s
                      ∧ y ∈ speaker_samples samples m s)
    ∧ (∀ t s, t ∈ pos → m !! left t = Some s ∨ m !! right t = Some s →
              2 ≤ size (speaker_samples samples m s))
  | Raise e => e = KeyError ∧ ¬ valid_input samples m gm ess
  | OutOfFuel => False
  end.
Proof.
  pose proof (generate_outcome trial_str samples m gm ess None) as Hout.
  destruct (generate_speaker_trials _ _ _ _ _ _) as [out|e|]; [|done..].
  destruct Hout as (pos & neg & -> & Hspec). simpl.
  rewrite (filter_flags_l true); [|apply Hspec..].
  split; [apply Hspec|].
  assert (Hiff : ∀ x y, {[x; y]} ∈ trial_pair <$> pos ↔
    x ≠ y ∧ ∃ s, x ∈ speaker_samples samples m s
                 ∧ y ∈ speaker_samples samples m s).
  { intros x y. setoid_rewrite elem_of_speaker_samples. split.
    - intros (x' & y' & s & ? & ? & ? & ? & ? & Heq)%(pos_sound _ _ _ _ _ _ _ Hspec).
      apply (fs_eq x y x' y') in Heq as [[-> ->]|[-> ->]];
        (split; [done|by exists s]).
    - intros (Hne & s & [? ?] & [? ?]).
      apply (pos_complete _ _ _ _ _ _ _ Hspec eq_refl). by exists x, y, s. }
  split; [done|]. intros t s Ht Hs.
  assert ({[left t; right t]} ∈ trial_pair <$> pos) as Hin.
  { by apply (list_elem_of_fmap_2 trial_pair). }
  apply Hiff in Hin as (Hne & s' & Hl & Hr).
  assert (s' = s) as ->.
  { apply elem_of_speaker_samples in Hl as [_ Hl], Hr as [_ Hr].
    destruct Hs; congruence. }
  by eapply speaker_samples_two.
Qed.

(** C3. Without a limit, the negative trials of the returned list are,
    each exactly once, the pairs of a sample of one speaker and a sample
    of another speaker, over the speaker pairs that have one recorded
    gender when [ensure_same_sex_trials] is set, and over all speaker
    pairs otherwise; with the flag set no negative trial pairs speakers of
    differing recorded gender. *)
Theorem negative_correctness :
  match generate_speaker_trials trial_str samples m gm ess None with
  | Return out =>
    let neg := filter (λ t, same_speaker t = false) out in
    NoDup (trial_pair <$> neg)
    ∧ (∀ x y, {[x; y]} ∈ trial_pair <$> neg ↔
         ∃ s1 s2, x ∈ speaker_samples samples m s1
                  ∧ y ∈ speaker_samples samples m s2
                  ∧ s1 ≠ s2
                  ∧ (ess = true →
                     ∃ g, gm !! s1 = Some g ∧ gm !! s2 = Some g))
    ∧ (ess = true →
       ∀ t, t ∈ neg →
            ∃ s1 s2 g, m !! left t = Some s1 ∧ m !! right t = Some s2
                       ∧ gm !! s1 = Some g ∧ gm !! s2 = Some g)
  | Raise e => e = KeyError ∧ ¬ valid_input samples m gm ess
  | OutOfFuel => False
  end.
Proof.
  pose proof (generate_outcome trial_str samples m gm ess None) as Hout.
  destruct (generate_speaker_trials _ _ _ _ _ _) as [out|e|]; [|done..].
  destruct Hout as (pos & neg & -> & Hspec). simpl.
  rewrite (filter_flags_r false); [|apply Hspec..].
  split; [apply Hspec|].
  assert (Hiff : ∀ x y, {[x; y]} ∈ trial_pair <$> neg ↔
    ∃ s1 s2, x ∈ speaker_samples samples m s1
             ∧ y ∈ speaker_samples samples m s2
             ∧ s1 ≠ s2
             ∧ (ess = true → ∃ g, gm !! s1 = Some g ∧ gm !! s2 = Some g)).
  { intros x y. setoid_rewrite elem_of_speaker_samples. split.
    - intros (x' & y' & s1 & s2 & ? & ? & ? & ? & Hq & Heq)%(neg_sound _ _ _ _ _ _ _ Hspec).
      apply (fs_eq x y x' y') in Heq as [[-> ->]|[-> ->]].
      + exists s1, s2. by destruct Hq.
      + exists s2, s1. by destruct (qualifies_sym _ _ _ _ Hq).
    - intros (s1 & s2 & [? ?] & [? ?] & Hne & Hg).
      apply (neg_complete _ _ _ _ _ _ _ Hspec eq_refl).
      by exists x, y, s1, s2. }
  split; [done|]. intros Hess t Ht.
  assert ({[left t; right t]} ∈ trial_pair <$> neg) as Hin.
  { by apply (list_elem_of_fmap_2 trial_pair). }
  apply Hiff in Hin as (s1 & s2 & [_ ?]%elem_of_speaker_samples
                        & [_ ?]%elem_of_speaker_samples & _ & Hg).
  destruct (Hg Hess) as (g & ? & ?). by exists s1, s2, g.
Qed.

(** C5. Whatever the limit, the returned list holds no unordered sample
    pair twice, and two trials on one unordered pair carry the same
    flag, so no pair is both a positive and a negative trial. *)
Theorem no_duplicate_pairs (limit : option Z) :
  match generate_speaker_trials trial_str samples m gm ess limit with
  | Return out =>
    NoDup (trial_pair <$> out)
    ∧ (∀ t1 t2, t1 ∈ out → t2 ∈ out → trial_pair t1 = trial_pair t2 →
                same_speaker t1 = same_speaker t2)
  | Raise e => e = KeyError ∧ ¬ valid_input samples m gm ess
  | OutOfFuel => False
  end.
Proof.
  pose proof (generate_outcome trial_str samples m gm ess limit) as Hout.
  destruct (generate_speaker_trials _ _ _ _ _ _) as [out|e|]; [|done..].
  destruct Hout as (pos & neg & -> & Hspec).
  assert (Hdisj : ∀ t1 t2, t1 ∈ pos → t2 ∈ neg →
                           trial_pair t1 ≠ trial_pair t2).
  { intros t1 t2 Ht1 Ht2 Heq.
    apply (same_cross_disjoint samples m gm ess (trial_pair t1)).
    - apply (pos_sound _ _ _ _ _ _ _ Hspec).
      by apply list_elem_of_fmap_2.
    - rewrite Heq. apply (neg_sound _ _ _ _ _ _ _ Hspec).
      by apply list_elem_of_fmap_2. }
  split.
  - rewrite fmap_app. apply NoDup_app.
    split; [apply Hspec|]. split; [|apply Hspec].
    intros q (t1 & -> & Ht1)%list_elem_of_fmap (t2 & Heq & Ht2)%list_elem_of_fmap.
    by apply (Hdisj t1 t2).
  - pose proof (pos_flags _ _ _ _ _ _ _ Hspec) as Hpf.
    pose proof (neg_flags _ _ _ _ _ _ _ Hspec) as Hnf.
    rewrite Forall_forall in Hpf, Hnf.
    intros t1 t2 [Ht1|Ht1]%elem_of_app [Ht2|Ht2]%elem_of_app Heq.
    + by rewrite (Hpf t1), (Hpf t2).
    + by destruct (Hdisj t1 t2).
    + by destruct (Hdisj t2 t1).
    + by rewrite (Hnf t1), (Hnf t2).
Qed.
End correctness.

(** ** The defensive check and the zero limit *)

Lemma continue_loop_zero `{Countable K} (st : loop_state (K:=K)) :
  continue_loop (Some 0%Z) st = false.
Proof.
  unfold continue_loop. apply andb_false_intro2, bool_decide_eq_false. lia.
Qed.

Lemma while_loop_zero `{Countable K} `{PyOrd K} fuel (st : loop_state (K:=K)) :
  while_loop (Some 0%Z) fuel st = Return st.
Proof. destruct fuel; cbn -[continue_loop]; by rewrite continue_loop_zero. Qed.

Lemma set_iter_empty `{HashOrder} `{Countable A} : set_iter (∅ : gset A) = [].
Proof. apply Permutation_nil_r. by rewrite set_iter_perm, elements_empty. Qed.

(** C6. Over well-formed speaker groups (no sample id twice in a list or
    in two lists) the scheduler never takes its duplicate-pair branch: the
    positive pass returns, and the negative pass returns unless a gender
    lookup raised [KeyError] before the scheduler started; no pass raises
    the [ValueError] of the branch. *)
Theorem duplicate_branch_unreachable `{HashOrder}
    (samples_per_speaker : gmap string (list string))
    (limit_num_trials : option Z) :
  groups_wf samples_per_speaker →
  (∃ out, _positive_pairs samples_per_speaker limit_num_trials = Return out)
  ∧ (∀ ess gm,
       (∃ out, _negative_pairs ess gm samples_per_speaker limit_num_trials
               = Return out)
       ∨ _negative_pairs ess gm samples_per_speaker limit_num_trials
         = Raise KeyError)
  ∧ _positive_pairs samples_per_speaker limit_num_trials ≠ Raise ValueError
  ∧ (∀ ess gm, _negative_pairs ess gm samples_per_speaker limit_num_trials
               ≠ Raise ValueError).
Proof.
  intros Hwf.
  assert (Hpos : ∃ out, _positive_pairs samples_per_speaker limit_num_trials
                        = Return out).
  { unfold _positive_pairs, _exhaust_pairs_iterator_dictionary.
    destruct (exhaust_state_returns (combinations2 <$> samples_per_speaker)
                limit_num_trials) as (st & _ & -> & _);
      [by apply positive_generators_distinct|].
    simpl. by eauto. }
  assert (Hneg : ∀ ess gm,
    (∃ out, _negative_pairs ess gm samples_per_speaker limit_num_trials
            = Return out)
    ∨ _negative_pairs ess gm samples_per_speaker limit_num_trials
      = Raise KeyError).
  { intros ess gm. unfold _negative_pairs.
    destruct (outer_loop_outcome ess gm
                (sorted (dict_keys samples_per_speaker))
                (sorted (dict_keys samples_per_speaker)) ∅)
      as [[S HS]|HS]; rewrite HS; simpl; [|by right].
    left. unfold _exhaust_pairs_iterator_dictionary.
    destruct (exhaust_state_returns
                (negative_generators samples_per_speaker S) limit_num_trials)
      as (st & _ & -> & _).
    - apply negative_generators_distinct; [done|]. intros a b Hin.
      by destruct (speaker_pair_set_spec _ _ _ _ _ _ HS Hin).
    - simpl. by eauto. }
  split; [done|]. split; [done|]. split.
  - destruct Hpos as [out ->]. done.
  - intros ess gm. destruct (Hneg ess gm) as [[out ->]| ->]; done.
Qed.

(** C9. With limit 0 the loop of the scheduler stops before its first
    pass: the dictionary of generators is returned untouched and the pair
    list is empty; so [generate_speaker_trials] returns the empty list
    (unless a speaker or gender lookup already failed). *)
Theorem limit_zero `{HashOrder} :
  (∀ `{Countable K} `{PyOrd K} (gens : gmap K (list (string * string))),
     exhaust_state gens (Some 0%Z)
     = Return {| generators := gens;
                 key_queue := sorted (dict_keys gens);
                 pairs := ∅ |}
     ∧ _exhaust_pairs_iterator_dictionary gens (Some 0%Z) = Return [])
  ∧ (∀ trial_str samples m gm ess,
       match generate_speaker_trials trial_str samples m gm ess (Some 0%Z) with
       | Return out => out = []
       | Raise e => e = KeyError ∧ ¬ valid_input samples m gm ess
       | OutOfFuel => False
       end).
Proof.
  split.
  - intros K ? ? ? gens.
    assert (exhaust_state gens (Some 0%Z) = Return (initial_state gens)) as Hst.
    { apply while_loop_zero. }
    split; [done|]. unfold _exhaust_pairs_iterator_dictionary.
    rewrite Hst. simpl. by rewrite set_iter_empty.
  - intros trial_str samples m gm ess.
    pose proof (generate_outcome trial_str samples m gm ess (Some 0%Z)) as Hout.
    destruct (generate_speaker_trials _ _ _ _ _ _) as [out|e|]; [|done..].
    destruct Hout as (pos & neg & -> & Hspec).
    pose proof (pos_limit _ _ _ _ _ _ _ Hspec 0%Z eq_refl) as Hp.
    pose proof (neg_limit _ _ _ _ _ _ _ Hspec 0%Z eq_refl) as Hn.
    rewrite (nil_length_inv pos), (nil_length_inv neg); [done|lia..].
Qed.

(** ** Fairness of the round-robin scheduler *)

Lemma length_filter_fmap {A B} (f : A → B) (P : B → Prop)
    `{∀ x, Decision (P x)} (l : list A) :
  length (filter P (f <$> l)) = length (filter (λ x, P (f x)) l).
Proof.
  induction l as [|x l IH]; [done|]. rewrite fmap_cons.
  destruct (decide (P (f x))).
  - rewrite !filter_cons_True by done. simpl. by rewrite IH.
  - by rewrite !filter_cons_False.
Qed.

Lemma list_to_set_set_iter `{HashOrder} `{Countable A} (X : gset A) :
  list_to_set (set_iter X) = X.
Proof.
  rewrite (list_to_set_perm_L _ _ (set_iter_perm X)).
  apply list_to_set_elements_L.
Qed.

Section fairness_facts.
Context `{HashOrder} `{Countable K} `{PyOrd K}.
Implicit Types (gens : gmap K (list (string * string))) (k : K).

Lemma yielded_le gens0 gens k :
  yielded gens0 gens k ≤ length (remaining gens0 k).
Proof. unfold yielded. lia. Qed.

(** A group is at most one pair ahead of any group that has not run
    dry. *)
Lemma yielded_fair gens limit st k h :
  exhaust_state gens limit = Return st →
  yielded gens (generators st) k ≤ yielded gens (generators st) h + 1
  ∨ yielded gens (generators st) h = length (remaining gens h).
Proof.
  intros [[r Hinv] _]%exhaust_state_inv.
  assert (Hk : yielded gens (generators st) k ≤ S r).
  { destruct (generators st !! k) as [g|] eqn:Hg.
    - rewrite (inv_turn _ _ _ Hinv) by by eauto. case_decide; lia.
    - pose proof (inv_gone _ _ _ Hinv k Hg).
      pose proof (yielded_le gens (generators st) k). lia. }
  destruct (generators st !! h) as [g|] eqn:Hg.
  - left. rewrite (inv_turn _ _ _ Hinv h) by by eauto. case_decide; lia.
  - right. unfold yielded. rewrite (remaining_None _ _ Hg). simpl. lia.
Qed.

(** What a group contributed to the returned list is what was pulled
    from its generator. *)
Lemma contributed_yielded gens limit st k :
  distinct_pairs gens →
  exhaust_state gens limit = Return st →
  contributed gens k (set_iter <$> set_iter (pairs st))
  = yielded gens (generators st) k.
Proof.
  intros [Hnd Hdisj] [[r Hinv] _]%exhaust_state_inv. unfold contributed.
  rewrite length_filter_fmap.
  rewrite (list_filter_iff _ (λ q, q ∈ fs <$> remaining gens k))
    by (intros q; by rewrite list_to_set_set_iter).
  rewrite (filter_Permutation _ _ _ (set_iter_perm (pairs st))).
  assert (NoDup (fs <$> remaining gens k)) as Hndk.
  { unfold remaining. destruct (gens !! k) as [g|] eqn:Hg; simpl.
    - by eapply Hnd.
    - constructor. }
  rewrite (NoDup_Permutation _ (fs <$> pulled gens (generators st) k)).
  - rewrite length_fmap. unfold pulled.
    apply length_take_le, yielded_le.
  - apply NoDup_filter, NoDup_elements.
  - unfold pulled. rewrite fmap_take.
    eapply sublist_NoDup; [done|apply sublist_take].
  - intros q. rewrite list_elem_of_filter, elem_of_elements. split.
    + intros [(p & -> & Hp)%list_elem_of_fmap Hq].
      apply (inv_pairs _ _ _ Hinv) in Hq as (k' & p' & Hp' & Heq).
      rewrite Heq. apply list_elem_of_fmap_2.
      apply elem_of_remaining in Hp as (g & Hg & Hin).
      pose proof Hp' as Hin'.
      apply elem_of_pulled, elem_of_remaining in Hin' as (g' & Hg' & Hin').
      by rewrite (Hdisj k k' g g' p p' Hg Hg' Hin Hin' Heq).
    + intros (p & -> & Hp)%list_elem_of_fmap. split.
      * apply list_elem_of_fmap_2. by eapply elem_of_pulled.
      * apply (inv_pairs _ _ _ Hinv). by exists k, p.
Qed.
End fairness_facts.

(** C4 (as the scheduler has it). Whatever the limit, in the pair list
    returned by the scheduler a group contributes at most one pair more
    than any other group, unless that other group has contributed all the
    pairs it has: a generator that ran dry cannot keep up with the others. *)
Theorem round_robin_fairness `{HashOrder} `{Countable K} `{PyOrd K}
    (gens : gmap K (list (string * string))) (limit_num_trials : option Z) :
  distinct_pairs gens →
  ∃ out, _exhaust_pairs_iterator_dictionary gens limit_num_trials = Return out
         ∧ ∀ k h, contributed gens k out ≤ contributed gens h out + 1
                  ∨ contributed gens h out = length (remaining gens h).
Proof.
  intros Hdist. unfold _exhaust_pairs_iterator_dictionary.
  destruct (exhaust_state_returns gens limit_num_trials Hdist)
    as (st & _ & Hst & _).
  rewrite Hst. simpl. eexists. split; [done|]. intros k h.
  rewrite !(contributed_yielded gens limit_num_trials st) by done.
  by eapply yielded_fair.
Qed.

(** The pair of the example below: speaker A has six pairs and B has one;
    with limit 4 (of 7) speaker A contributes three pairs and B its one. *)
Lemma limit_fairness_counterexample :
  let gens := combinations2 <$> uneven_groups in
  total_pairs gens = 7
  ∧ _positive_pairs (H:=hash_elements) uneven_groups (Some 4%Z)
    = Return [["a1"; "a4"]; ["b1"; "b2"]; ["a1"; "a2"]; ["a3"; "a1"]]
  ∧ contributed gens "A"
      [["a1"; "a4"]; ["b1"; "b2"]; ["a1"; "a2"]; ["a3"; "a1"]] = 3
  ∧ contributed gens "B"
      [["a1"; "a4"]; ["b1"; "b2"]; ["a1"; "a2"]; ["a3"; "a1"]] = 1.
Proof. vm_compute. by repeat split. Qed.

(** ** Checking inputs by evaluation *)

Lemma valid_inputb_sound samples m gm ess :
  valid_inputb samples m gm ess = true → valid_input samples m gm ess.
Proof.
  unfold valid_inputb. rewrite forallb_forall. intros Hall.
  assert (Hx : ∀ x, x ∈ samples → check_sample m gm ess x = true).
  { intros x Hx. apply Hall. by apply list_elem_of_In, elem_of_elements. }
  split.
  - intros x Hin. specialize (Hx x Hin). unfold check_sample in Hx.
    destruct (m !! x); [by eauto|done].
  - intros -> x s Hin Hs. specialize (Hx x Hin). unfold check_sample in Hx.
    rewrite Hs in Hx. by apply bool_decide_eq_true in Hx.
Qed.

Lemma NoDup_mjoin_elem {K A} (l : list (K * list A)) k1 k2 v1 v2 x :
  NoDup (mjoin l.*2) →
  (k1, v1) ∈ l → (k2, v2) ∈ l → x ∈ v1 → x ∈ v2 →
  NoDup v1 ∧ (k1, v1) = (k2, v2).
Proof.
  induction l as [|[k v] l IH]; [by intros _ ?%elem_of_nil|].
  rewrite fmap_cons. simpl. intros (Hv & Hdisj & Hrest)%NoDup_app.
  assert (Htail : ∀ k' v', (k', v') ∈ l → x ∈ v' → x ∈ mjoin l.*2).
  { intros k' v' Hin Hx. apply list_elem_of_join. exists v'.
    split; [done|]. by apply (list_elem_of_fmap_2 snd _ (k', v')). }
  intros [[= -> ->]|H1]%elem_of_cons [[= -> ->]|H2]%elem_of_cons Hx1 Hx2.
  - done.
  - destruct (Hdisj x Hx1). by eapply Htail.
  - destruct (Hdisj x Hx2). by eapply Htail.
  - by apply IH.
Qed.

Lemma groups_wfb_sound sps : groups_wfb sps = true → groups_wf sps.
Proof.
  intros Hnd%bool_decide_eq_true. split.
  - intros k v Hk. apply elem_of_map_to_list in Hk.
    destruct v as [|x v]; [constructor|].
    eapply (NoDup_mjoin_elem _ k k _ _ x Hnd); by try left.
  - intros k1 k2 v1 v2 x Hk1 Hk2 Hx1 Hx2.
    apply elem_of_map_to_list in Hk1, Hk2.
    by destruct (NoDup_mjoin_elem _ k1 k2 v1 v2 x Hnd Hk1 Hk2 Hx1 Hx2)
      as [_ [= -> _]].
Qed.

(** ** Determinism *)

Lemma trial_key_flags b (l : list SpeakerTrial) :
  Forall (λ t, same_speaker t = b) l →
  trial_key <$> l = (λ q, (q, b)) <$> (trial_pair <$> l).
Proof.
  induction 1 as [|t l Ht _ IH]; [done|].
  rewrite !fmap_cons, IH. unfold trial_key at 1. by rewrite Ht.
Qed.

(** Two runs without a limit return the same unordered pairs in each
    pass. *)
Lemma trial_list_spec_perm samples m gm ess pos1 neg1 pos2 neg2 :
  trial_list_spec samples m gm ess None pos1 neg1 →
  trial_list_spec samples m gm ess None pos2 neg2 →
  trial_pair <$> pos1 ≡ₚ trial_pair <$> pos2
  ∧ trial_pair <$> neg1 ≡ₚ trial_pair <$> neg2.
Proof.
  intros H1 H2. split.
  - apply NoDup_Permutation; [apply H1|apply H2|]. intros q. split; intros Hq.
    + by apply (pos_complete _ _ _ _ _ _ _ H2), (pos_sound _ _ _ _ _ _ _ H1).
    + by apply (pos_complete _ _ _ _ _ _ _ H1), (pos_sound _ _ _ _ _ _ _ H2).
  - apply NoDup_Permutation; [apply H1|apply H2|]. intros q. split; intros Hq.
    + by apply (neg_complete _ _ _ _ _ _ _ H2), (neg_sound _ _ _ _ _ _ _ H1).
    + by apply (neg_complete _ _ _ _ _ _ _ H1), (neg_sound _ _ _ _ _ _ _ H2).
Qed.

(** C1. The returned list is not the same in every run.  Two runs that
    iterate the set of the samples a1, a2, a3 of one speaker in the orders
    a3, a1, a2 and a2, a1, a3: with limit 1 they return different pairs
    (the first 2-combination of the speaker's list); without a limit they
    return the same pairs, with other orientations and in another order. *)
Lemma determinism_counterexample :
  @set_iter hash_elements _ _ _ one_speaker_samples = ["a3"; "a1"; "a2"]
  ∧ @set_iter hash_reversed _ _ _ one_speaker_samples = ["a2"; "a1"; "a3"]
  ∧ generate_speaker_trials (H:=hash_elements) line_of_trial
      one_speaker_samples one_speaker ∅ false (Some 1%Z)
    = Return [{| left := "a3"; right := "a1"; same_speaker := true |}]
  ∧ generate_speaker_trials (H:=hash_reversed) line_of_trial
      one_speaker_samples one_speaker ∅ false (Some 1%Z)
    = Return [{| left := "a2"; right := "a1"; same_speaker := true |}]
  ∧ generate_speaker_trials (H:=hash_elements) line_of_trial
      one_speaker_samples one_speaker ∅ false None
    = Return [{| left := "a1"; right := "a2"; same_speaker := true |};
              {| left := "a3"; right := "a1"; same_speaker := true |};
              {| left := "a3"; right := "a2"; same_speaker := true |}]
  ∧ generate_speaker_trials (H:=hash_reversed) line_of_trial
      one_speaker_samples one_speaker ∅ false None
    = Return [{| left := "a1"; right := "a3"; same_speaker := true |};
              {| left := "a2"; right := "a1"; same_speaker := true |};
              {| left := "a2"; right := "a3"; same_speaker := true |}].
Proof. vm_compute. by repeat split. Qed.

(** X11. What does not depend on the run: without a limit, any two runs on
    one valid input return the same trials up to the orientation of each pair
    and the position this gives it in the sorted list; the lists of
    unordered pairs with their flags are permutations of each other. *)
Lemma trials_up_to_orientation (H1 H2 : HashOrder)
    (trial_str : SpeakerTrial → string) (samples : gset string)
    (m gm : gmap string string) (ess : bool) :
  valid_input samples m gm ess →
  ∃ out1 out2,
    generate_speaker_trials (H:=H1) trial_str samples m gm ess None
    = Return out1
    ∧ generate_speaker_trials (H:=H2) trial_str samples m gm ess None
      = Return out2
    ∧ trial_key <$> out1 ≡ₚ trial_key <$> out2.
Proof.
  intros Hvalid.
  destruct (generate_returns (H:=H1) trial_str samples m gm ess None Hvalid)
    as (pos1 & neg1 & -> & Hspec1).
  destruct (generate_returns (H:=H2) trial_str samples m gm ess None Hvalid)
    as (pos2 & neg2 & -> & Hspec2).
  exists (pos1 ++ neg1), (pos2 ++ neg2). do 2 (split; [done|]).
  destruct (trial_list_spec_perm _ _ _ _ _ _ _ _ Hspec1 Hspec2) as [Hp Hn].
  rewrite !fmap_app.
  rewrite (trial_key_flags true pos1), (trial_key_flags true pos2),
    (trial_key_flags false neg1), (trial_key_flags false neg2);
    try apply Hspec1; try apply Hspec2.
  by rewrite Hp, Hn.
Qed.

(** ** Instances at concrete inputs *)

Lemma trials_up_to_orientation_witness :
  ∃ out1 out2,
    generate_speaker_trials (H:=hash_elements) line_of_trial example_samples
      example_speakers example_genders true None = Return out1
    ∧ generate_speaker_trials (H:=hash_reversed) line_of_trial example_samples
        example_speakers example_genders true None = Return out2
    ∧ trial_key <$> out1 ≡ₚ trial_key <$> out2.
Proof.
  apply trials_up_to_orientation. apply valid_inputb_sound.
  vm_compute. reflexivity.
Defined.

Lemma round_robin_fairness_witness :
  ∃ out,
    _exhaust_pairs_iterator_dictionary (H:=hash_elements)
      (combinations2 <$> uneven_groups) (Some 4%Z) = Return out
    ∧ ∀ k h,
        contributed (combinations2 <$> uneven_groups) k out
        ≤ contributed (combinations2 <$> uneven_groups) h out + 1
        ∨ contributed (combinations2 <$> uneven_groups) h out
          = length (remaining (combinations2 <$> uneven_groups) h).
Proof.
  apply round_robin_fairness. apply positive_generators_distinct.
  apply groups_wfb_sound. vm_compute. reflexivity.
Defined.

Lemma duplicate_branch_unreachable_witness :
  (∃ out, _positive_pairs (H:=hash_elements) example_groups (Some 3%Z)
          = Return out)
  ∧ _positive_pairs (H:=hash_elements) example_groups (Some 3%Z)
    ≠ Raise ValueError.
Proof.
  destruct (duplicate_branch_unreachable (H:=hash_elements) example_groups
              (Some 3%Z)) as (Hpos & _ & Hne & _).
  - apply groups_wfb_sound. vm_compute. reflexivity.
  - by split.
Defined.

Lemma get_gender_mapping_spec_witness :
  ∃ m, (WavAudioDataSampleTrialAggregator.get_gender_mapping id
          example_aggregator).1 = Return m
       ∧ m !! "A" = Some "f".
Proof.
  destruct (get_gender_mapping_spec id (λ l, reflexivity l) example_aggregator)
    as (_ & _ & Hok).
  destruct Hok as (m & Hm & Hiff).
  - intros k gs Hk. unfold example_aggregator in Hk.
    cbn [WavAudioDataSampleTrialAggregator._map_speaker_id_to_gender] in Hk.
    apply lookup_singleton_Some in Hk as [<- <-]. split.
    + apply size_singleton.
    + intros g ->%elem_of_singleton. by left.
  - exists m. split; [done|]. apply Hiff. apply lookup_singleton_eq.
Defined.

Lemma get_gender_mapping_twice_witness :
  let emptied :=
    {| WavAudioDataSampleTrialAggregator.speaker_ids := {["A"]};
       WavAudioDataSampleTrialAggregator.sample_ids := {["a1"; "a2"]};
       WavAudioDataSampleTrialAggregator.map_sample_id_to_speaker_id :=
         list_to_map [("a1", "A"); ("a2", "A")];
       WavAudioDataSampleTrialAggregator._map_speaker_id_to_gender :=
         {["A" := ∅]} |} in
  WavAudioDataSampleTrialAggregator.get_gender_mapping id example_aggregator
  = (Return {["A" := "f"]}, emptied)
  ∧ WavAudioDataSampleTrialAggregator.get_gender_mapping id emptied
    = (Raise ValueError, emptied).
Proof.
  intros emptied.
  assert (WavAudioDataSampleTrialAggregator.get_gender_mapping id
            example_aggregator = (Return {["A" := "f"]}, emptied)) as Hfirst.
  { vm_compute. reflexivity. }
  split; [done|].
  apply (get_gender_mapping_twice id (λ l, reflexivity l) example_aggregator
           emptied {["A" := "f"]} Hfirst).
  vm_compute. discriminate.
Defined.

(** The example of the specification: four positive trials, and the six
    negative trials between the two female speakers. *)
Example specification_example :
  generate_speaker_trials (H:=hash_elements) line_of_trial example_samples
    example_speakers example_genders true None
  = Return
      [{| left := "a1"; right := "a2"; same_speaker := true |};
       {| left := "a3"; right := "a1"; same_speaker := true |};
       {| left := "a3"; right := "a2"; same_speaker := true |};
       {| left := "b1"; right := "b2"; same_speaker := true |};
       {| left := "a1"; right := "b1"; same_speaker := false |};
       {| left := "a1"; right := "b2"; same_speaker := false |};
       {| left := "a2"; right := "b1"; same_speaker := false |};
       {| left := "a2"; right := "b2"; same_speaker := false |};
       {| left := "a3"; right := "b1"; same_speaker := false |};
       {| left := "a3"; right := "b2"; same_speaker := false |}].
Proof. vm_compute. reflexivity. Qed.


(** * Further properties *)

(** ** Ingestion *)

Section ingest_facts.
Import WavAudioDataSampleTrialAggregator.

Lemma ingest_app dp1 : ∀ ag dp2,
  ingest ag (dp1 ++ dp2) = ag' ← ingest ag dp1; ingest ag' dp2.
Proof.
  induction dp1 as [|x dp1 IH]; intros ag dp2; simpl; [done|].
  destruct (__call__ ag x) as [ag'| |]; simpl; [apply IH|done..].
Qed.

Lemma ingested_nil : ingested [] __init__.
Proof.
  split; simpl.
  - intros k. split; [by intros ?%not_elem_of_empty|].
    by intros (? & ?%elem_of_nil & _).
  - intros k. split; [by intros ?%not_elem_of_empty|].
    by intros (? & ?%elem_of_nil & _).
  - intros k s. rewrite lookup_empty. split; [done|].
    by intros (? & ?%elem_of_nil & _).
  - intros s. rewrite lookup_empty. split; [by intros [? ?]|].
    by intros (? & ?%elem_of_nil & _).
  - intros s g. unfold gender_set_of. rewrite lookup_empty. simpl.
    split; [by intros ?%not_elem_of_empty|].
    by intros (? & ?%elem_of_nil & _).
Qed.

Lemma elem_of_snoc {A} (l : list A) (x y : A) :
  y ∈ l ++ [x] ↔ y ∈ l ∨ y = x.
Proof. by rewrite elem_of_app, list_elem_of_singleton. Qed.

Lemma ingested_snoc dp ag x ag' :
  ingested dp ag → __call__ ag x = Return ag' → ingested (dp ++ [x]) ag'.
Proof.
  intros [Hsamples Hspeakers Hmap Hdom Hgenders]. unfold __call__.
  case_bool_decide as Hnew; [done|].
  destruct (speaker_id x) as [s|] eqn:Hs; [|done].
  destruct (gender x) as [g|] eqn:Hg; [|done]. intros [= <-].
  split; simpl.
  - intros k. rewrite elem_of_union, elem_of_singleton, Hsamples.
    setoid_rewrite elem_of_snoc. split.
    + intros [(y & ? & ?)| ->]; [by exists y; auto|by exists x; auto].
    + intros (y & [?| ->] & ?); [left; by exists y|by right].
  - intros s'. rewrite elem_of_union, elem_of_singleton, Hspeakers.
    setoid_rewrite elem_of_snoc. split.
    + intros [(y & ? & ?)| ->]; [by exists y; auto|by exists x; auto].
    + intros (y & [?| ->] & ?); [left; by exists y|right; congruence].
  - intros k s'. setoid_rewrite elem_of_snoc.
    destruct (decide (key x = k)) as [<-|Hne].
    + rewrite lookup_insert_eq. split.
      * intros [= <-]. exists x. by auto.
      * intros (y & [Hy| ->] & Hk & Hy'); [|congruence].
        destruct Hnew. apply Hsamples. by exists y.
    + rewrite lookup_insert_ne by done. rewrite Hmap. split.
      * intros (y & ? & ? & ?). exists y. by auto.
      * intros (y & [?| ->] & ? & ?); [by exists y|done].
  - intros s'. setoid_rewrite elem_of_snoc.
    destruct (decide (s = s')) as [<-|Hne].
    + rewrite lookup_insert_eq. split; [|by eauto].
      intros _. exists x. by auto.
    + rewrite lookup_insert_ne by done. rewrite Hdom. split.
      * intros (y & ? & ?). exists y. by auto.
      * intros (y & [?| ->] & ?); [by exists y|congruence].
  - intros s' g'. setoid_rewrite elem_of_snoc.
    destruct (decide (s = s')) as [<-|Hne].
    + unfold gender_set_of at 1. rewrite lookup_insert_eq. simpl.
      rewrite elem_of_union, elem_of_singleton, Hgenders. split.
      * intros [(y & ? & ? & ?)| ->]; [by exists y; auto|by exists x; auto].
      * intros (y & [?| ->] & ? & ?); [left; by exists y|right; congruence].
    + unfold gender_set_of at 1. rewrite lookup_insert_ne by done.
      fold (gender_set_of (_map_speaker_id_to_gender ag) s').
      rewrite Hgenders. split.
      * intros (y & ? & ? & ?). exists y. by auto.
      * intros (y & [?| ->] & ? & ?); [by exists y|congruence].
Qed.

(** The three outcomes of the loop over the pipeline. *)
Lemma ingest_cases (dp : list WavAudioDataSample) :
  match ingest __init__ dp with
  | Return ag => NoDup (key <$> dp) ∧ Forall labelled dp ∧ ingested dp ag
  | Raise e => e = ValueError ∧ ¬ (NoDup (key <$> dp) ∧ Forall labelled dp)
  | OutOfFuel => False
  end.
Proof.
  induction dp as [|x dp IH] using rev_ind.
  { simpl. split; [constructor|]. split; [constructor|apply ingested_nil]. }
  rewrite ingest_app.
  destruct (ingest __init__ dp) as [ag|e|]; [|simpl..|done].
  2:{ destruct IH as [-> Hbad]. split; [done|].
      rewrite fmap_app, Forall_app. intros [(? & _ & _)%NoDup_app [? _]].
      by apply Hbad. }
  destruct IH as (Hnd & Hlab & Hing). cbn [mbind outcome_bind ingest].
  destruct (__call__ ag x) as [ag'|e|] eqn:Hcall; simpl.
  - pose proof Hcall as Hcall'. unfold __call__ in Hcall'.
    case_bool_decide as Hnew; [done|].
    destruct (speaker_id x) as [s|] eqn:Hs; [|done].
    destruct (gender x) as [g|] eqn:Hg; [|done].
    split; [|split].
    + rewrite fmap_app. apply NoDup_app. split; [done|]. split.
      * intros k Hin ->%list_elem_of_singleton. apply Hnew.
        apply (ing_samples _ _ Hing).
        apply list_elem_of_fmap in Hin as (y & ? & ?). by exists y.
      * apply NoDup_singleton.
    + apply Forall_app. split; [done|]. apply Forall_singleton.
      unfold labelled. rewrite Hs, Hg. by eauto.
    + by eapply ingested_snoc.
  - unfold __call__ in Hcall. rewrite fmap_app, Forall_app.
    case_bool_decide as Hold.
    { injection Hcall as <-. split; [done|].
      intros [(_ & Hdisj & _)%NoDup_app _].
      apply (ing_samples _ _ Hing) in Hold as (y & Hy & Hk).
      apply (Hdisj (key x)); [|left].
      rewrite <-Hk. by apply list_elem_of_fmap_2. }
    assert (¬ labelled x → ¬ (NoDup ((key <$> dp) ++ (key <$> [x]))
                              ∧ Forall labelled dp ∧ Forall labelled [x]))
      as Hbad.
    { intros Hx (_ & _ & Hl). apply Forall_inv in Hl. by apply Hx. }
    destruct (speaker_id x) as [s|] eqn:Hs.
    + destruct (gender x) as [g|] eqn:Hg; [done|].
      injection Hcall as <-. split; [done|]. apply Hbad.
      unfold labelled. rewrite Hg. by intros [_ [? ?]].
    + injection Hcall as <-. split; [done|]. apply Hbad.
      unfold labelled. rewrite Hs. by intros [[? ?] _].
  - unfold __call__ in Hcall. case_bool_decide; [done|].
    by destruct (speaker_id x), (gender x).
Qed.

(** X1. Ingesting the samples of the pipeline succeeds exactly when no
    sample id occurs twice and every sample carries both labels, and it
    then records exactly these samples; otherwise it raises
    [ValueError]. *)
Theorem ingest_outcome (dp : list WavAudioDataSample) :
  (NoDup (key <$> dp) ∧ Forall labelled dp ↔
   ∃ ag, ingest __init__ dp = Return ag)
  ∧ (∀ ag, ingest __init__ dp = Return ag → ingested dp ag)
  ∧ (¬ (NoDup (key <$> dp) ∧ Forall labelled dp) ↔
     ingest __init__ dp = Raise ValueError).
Proof.
  pose proof (ingest_cases dp) as Hcases.
  destruct (ingest __init__ dp) as [ag|e|]; [| |done].
  - destruct Hcases as (Hnd & Hlab & Hing). split; [|split].
    + split; [by eauto|done].
    + by intros ? [= <-].
    + split; [|done]. by intros [].
  - destruct Hcases as [-> Hbad]. split; [|split].
    + split; [done|]. by intros [? ?].
    + done.
    + done.
Qed.




(** X3. The state kept by the aggregator: the sample ids are the keys of
    the speaker map, the speaker ids are the keys of the gender map and
    hold every speaker a sample is mapped to, and no speaker has an empty
    gender set. *)
Theorem ingest_invariant (dp : list WavAudioDataSample) (ag : t) :
  ingest __init__ dp = Return ag →
  dom (map_sample_id_to_speaker_id ag) = sample_ids ag
  ∧ dom (_map_speaker_id_to_gender ag) = speaker_ids ag
  ∧ (∀ k s, map_sample_id_to_speaker_id ag !! k = Some s → s ∈ speaker_ids ag)
  ∧ (∀ s gs, _map_speaker_id_to_gender ag !! s = Some gs → gs ≠ ∅).
Proof.
  intros Hag. pose proof (ingest_cases dp) as Hout. rewrite Hag in Hout.
  destruct Hout as (_ & Hlab & [Hsamples Hspeakers Hmap Hdom Hgenders]).
  rewrite Forall_forall in Hlab. split; [|split; [|split]].
  - apply set_eq. intros k. rewrite elem_of_dom, Hsamples. split.
    + intros [s (x & ? & ? & _)%Hmap]. by exists x.
    + intros (x & Hx & Hk). destruct (Hlab x Hx) as [[s Hs] _].
      exists s. apply Hmap. by exists x.
  - apply set_eq. intros s. by rewrite elem_of_dom, Hdom, Hspeakers.
  - intros k s (x & ? & _ & ?)%Hmap. apply Hspeakers. by exists x.
  - intros s gs Hs ->.
    destruct (proj1 (Hdom s)) as (x & Hx & Hxs); [by eauto|].
    destruct (Hlab x Hx) as [_ [g Hg]].
    assert (g ∈ gender_set_of (_map_speaker_id_to_gender ag) s) as Hin.
    { apply Hgenders. by exists x. }
    unfold gender_set_of in Hin. rewrite Hs in Hin.
    by apply not_elem_of_empty in Hin.
Qed.
End ingest_facts.

(** ** More on the scheduler *)

Section scheduler_outcomes.
Context `{Countable K} `{PyOrd K}.
Implicit Types (gens : gmap K (list (string * string))) (k : K).
Implicit Types (st : loop_state (K:=K)).

(** The two ways in which a pass of the loop goes on. *)
Lemma loop_body_cases st st' :
  loop_body st = Return st' →
  ∃ key queue g,
    generators st !! key = Some g
    ∧ ((g = []
        ∧ st' = {| generators := delete key (generators st);
                   key_queue := queue; pairs := pairs st |})
       ∨ (∃ p g', g = p :: g' ∧ (fs p ∉ pairs st)
                  ∧ st' = {| generators := <[key:=g']> (generators st);
                             key_queue := queue;
                             pairs := pairs st ∪ {[fs p]} |})).
Proof.
  unfold loop_body.
  destruct (list_pop _) as [[key queue]|]; [|done].
  unfold dict_get. destruct (generators st !! key) as [g|] eqn:Hkey; [|done].
  simpl. intros Hbody. exists key, queue, g. split; [done|].
  destruct g as [|[p1 p2] g].
  - left. by injection Hbody as <-.
  - right. case_bool_decide as Hdup; [done|]. injection Hbody as <-.
    by exists (p1, p2), g.
Qed.

Lemma total_pairs_delete gens k g :
  gens !! k = Some g →
  total_pairs gens = length g + total_pairs (delete k gens).
Proof.
  intros Hk. unfold total_pairs.
  rewrite (sum_list_Permutation _
    (length <$> ((k, g) :: map_to_list (delete k gens)).*2)); [done|].
  do 2 apply fmap_Permutation. symmetry. by apply map_to_list_delete.
Qed.

Lemma total_pairs_insert gens k g :
  total_pairs (<[k:=g]> gens) = length g + total_pairs (delete k gens).
Proof.
  unfold total_pairs. rewrite <-insert_delete_eq.
  rewrite (sum_list_Permutation _
    (length <$> ((k, g) :: map_to_list (delete k gens)).*2)); [done|].
  do 2 apply fmap_Permutation. apply map_to_list_insert, lookup_delete_eq.
Qed.

Lemma total_pairs_empty : total_pairs (∅ : gmap K (list (string * string))) = 0.
Proof. unfold total_pairs. by rewrite map_to_list_empty. Qed.

(** A pass moves one tuple from the generators to the collected pairs, or
    none. *)
Lemma loop_body_count st st' :
  loop_body st = Return st' →
  size (pairs st') + total_pairs (generators st')
  = size (pairs st) + total_pairs (generators st).
Proof.
  intros (key & queue & g & Hkey & Hcases)%loop_body_cases.
  rewrite (total_pairs_delete _ _ _ Hkey).
  destruct Hcases as [[-> ->]|(p & g' & -> & Hnew & ->)]; simpl; [done|].
  rewrite total_pairs_insert, size_union, size_singleton; [lia|].
  by apply disjoint_singleton_r.
Qed.

Lemma while_loop_count limit fuel : ∀ st st',
  while_loop limit fuel st = Return st' →
  size (pairs st') + total_pairs (generators st')
  = size (pairs st) + total_pairs (generators st).
Proof.
  induction fuel as [|fuel IH]; intros st st'; simpl;
    destruct (continue_loop limit st); try done; try (by intros [= <-]).
  destruct (loop_body st) as [st1| |] eqn:Hbody; try done. simpl.
  intros Hloop. rewrite (IH _ _ Hloop). by apply loop_body_count.
Qed.

Section any_generators.
Variable gens0 : gmap K (list (string * string)).

(** A pass of the loop fails in one way only. *)
Lemma loop_body_outcome r st :
  scheduler_inv gens0 r st →
  0 < size (generators st) →
  (∃ st', loop_body st = Return st') ∨ loop_body st = Raise ValueError.
Proof.
  intros Hinv Hsize. unfold loop_body.
  assert (∃ r1 queue1,
    scheduler_inv gens0 r1 {| generators := generators st;
                              key_queue := queue1; pairs := pairs st |}
    ∧ queue1
      = (if bool_decide (length (key_queue st) = 0)
         then sorted (dict_keys (generators st)) else key_queue st)
    ∧ queue1 ≠ [])
    as (r1 & queue1 & Hinv1 & Hq & Hne).
  { case_bool_decide as Hlen.
    - exists (S r), (sorted (dict_keys (generators st))).
      split; [|split; [done|]].
      + apply scheduler_inv_refresh; [done|]. by apply nil_length_inv.
      + intros Hnil.
        assert (dict_keys (generators st) = []) as Hkeys.
        { apply Permutation_nil_r. by rewrite <-Hnil, sorted_perm. }
        apply dict_keys_nil in Hkeys. rewrite Hkeys, map_size_empty in Hsize.
        lia.
    - exists r, (key_queue st). split; [by destruct st|]. split; [done|].
      intros Hnil. by rewrite Hnil in Hlen. }
  rewrite <-Hq. clear Hq Hinv Hsize.
  destruct (list_pop queue1) as [[key queue]|] eqn:Hpop;
    [|by apply list_pop_None in Hpop].
  apply list_pop_Some in Hpop.
  destruct (inv_queue _ _ _ Hinv1 key) as [g Hkey].
  { simpl. rewrite Hpop. apply elem_of_app. right. left. }
  simpl in Hkey. unfold dict_get. rewrite Hkey. simpl.
  destruct g as [|[p1 p2] g]; [by eauto|].
  case_bool_decide; [by right|by eauto].
Qed.

Lemma while_loop_outcome limit fuel : ∀ r st,
  scheduler_inv gens0 r st →
  passes (generators st) ≤ fuel →
  (∃ st', while_loop limit fuel st = Return st')
  ∨ while_loop limit fuel st = Raise ValueError.
Proof.
  induction fuel as [|fuel IH]; intros r st Hinv Hfuel; simpl;
    destruct (continue_loop limit st) eqn:Hcont; try (by eauto);
    apply continue_loop_size in Hcont;
    destruct (loop_body_outcome _ _ Hinv Hcont) as [[st1 Hbody]|Hbody].
  - pose proof (loop_body_passes _ _ Hbody) as Hlt. lia.
  - destruct (map_choose (generators st)) as (k & g & Hk).
    { intros Hempty. rewrite Hempty, map_size_empty in Hcont. lia. }
    rewrite (passes_delete _ _ _ Hk) in Hfuel. lia.
  - rewrite Hbody. simpl.
    destruct (loop_body_inv _ _ _ _ Hinv Hbody) as [r1 Hinv1].
    pose proof (loop_body_passes _ _ Hbody) as Hlt.
    apply (IH r1); [done|lia].
  - rewrite Hbody. by right.
Qed.

(** The passes that go on keep the pulled tuples free of repeated pairs. *)

Lemma pulled_delete gens key k :
  gens !! key = Some [] →
  pulled gens0 (delete key gens) k = pulled gens0 gens k.
Proof.
  intros Hkey. unfold pulled, yielded. by rewrite remaining_delete_nil.
Qed.

Lemma pulled_insert_ne gens key g k :
  key ≠ k → pulled gens0 (<[key:=g]> gens) k = pulled gens0 gens k.
Proof.
  intros Hne. unfold pulled, yielded. by rewrite remaining_insert_ne.
Qed.

Lemma pulled_insert_eq r st key p g :
  scheduler_inv gens0 r st →
  generators st !! key = Some (p :: g) →
  pulled gens0 (<[key:=g]> (generators st)) key
  = pulled gens0 (generators st) key ++ [p].
Proof.
  intros Hinv Hkey. destruct (inv_suffix _ _ _ Hinv key) as [pre Hpre].
  rewrite (pulled_suffix _ (generators st) _ pre) by done.
  apply pulled_suffix. rewrite remaining_insert_eq, <-app_assoc.
  by rewrite (remaining_Some _ _ _ Hkey) in Hpre.
Qed.

Lemma pulled_distinct_init : pulled_distinct gens0 gens0.
Proof.
  assert (∀ k, pulled gens0 gens0 k = []) as Hnil.
  { intros k. by apply pulled_suffix. }
  split.
  - intros k. rewrite Hnil. constructor.
  - intros k1 k2 p1 p2. rewrite Hnil. by intros ?%elem_of_nil.
Qed.

Lemma loop_body_pulled_distinct r st st' :
  scheduler_inv gens0 r st →
  pulled_distinct gens0 (generators st) →
  loop_body st = Return st' →
  pulled_distinct gens0 (generators st').
Proof.
  intros Hinv [Hnd Hdisj] (key & queue & g & Hkey & Hcases)%loop_body_cases.
  destruct Hcases as [[-> ->]|(p & g' & -> & Hnew & ->)]; simpl.
  { split.
    - intros k. by rewrite pulled_delete.
    - intros k1 k2 p1 p2. rewrite !pulled_delete by done. apply Hdisj. }
  assert (Hfresh : ∀ k p', p' ∈ pulled gens0 (generators st) k →
                           fs p' ≠ fs p).
  { intros k p' Hp' Heq. apply Hnew. rewrite <-Heq.
    apply (inv_pairs _ _ _ Hinv). by exists k, p'. }
  assert (Hcases : ∀ k p', p' ∈ pulled gens0 (<[key:=g']> (generators st)) k →
    p' ∈ pulled gens0 (generators st) k ∨ (k = key ∧ p' = p)).
  { intros k p'. destruct (decide (key = k)) as [<-|Hne].
    - rewrite (pulled_insert_eq _ _ _ _ _ Hinv Hkey).
      intros [?| ->%list_elem_of_singleton]%elem_of_app; by auto.
    - rewrite pulled_insert_ne by done. by auto. }
  split.
  - intros k. destruct (decide (key = k)) as [<-|Hne].
    + rewrite (pulled_insert_eq _ _ _ _ _ Hinv Hkey), fmap_app.
      apply NoDup_app. split; [apply Hnd|]. split; [|apply NoDup_singleton].
      intros q (p' & -> & Hp')%list_elem_of_fmap ?%list_elem_of_singleton.
      by apply (Hfresh key p').
    + rewrite pulled_insert_ne by done. apply Hnd.
  - intros k1 k2 p1 p2 [H1|[-> ->]]%Hcases [H2|[-> ->]]%Hcases Heq.
    + by eapply Hdisj.
    + by destruct (Hfresh k1 p1).
    + by destruct (Hfresh k2 p2).
    + done.
Qed.

Lemma while_loop_pulled_distinct limit fuel : ∀ r st st',
  scheduler_inv gens0 r st →
  pulled_distinct gens0 (generators st) →
  while_loop limit fuel st = Return st' →
  pulled_distinct gens0 (generators st').
Proof.
  induction fuel as [|fuel IH]; intros r st st' Hinv Hpd; simpl;
    destruct (continue_loop limit st); try done; try (by intros [= <-]).
  destruct (loop_body st) as [st1| |] eqn:Hbody; try done. simpl.
  destruct (loop_body_inv _ _ _ _ Hinv Hbody) as [r1 Hinv1].
  apply (IH r1); [done|].
  apply (loop_body_pulled_distinct r st st1 Hinv Hpd Hbody).
Qed.
End any_generators.

Lemma exhaust_state_outcome gens limit :
  (∃ st, exhaust_state gens limit = Return st)
  ∨ exhaust_state gens limit = Raise ValueError.
Proof.
  apply (while_loop_outcome gens limit _ 0); [apply scheduler_inv_init|done].
Qed.

(** X5. Without a limit the duplicate check of the scheduler is exact: the
    scheduler returns when no unordered pair is produced twice, by one
    generator or by two, and it then has emptied the dictionary of
    generators and collected every pair; otherwise it raises
    [ValueError]. *)
Theorem exhaust_unlimited (gens : gmap K (list (string * string))) :
  match exhaust_state gens None with
  | Return st =>
    distinct_pairs gens ∧ generators st = ∅
    ∧ ∀ q, q ∈ pairs st ↔ ∃ k g p, gens !! k = Some g ∧ p ∈ g ∧ q = fs p
  | Raise e => e = ValueError ∧ ¬ distinct_pairs gens
  | OutOfFuel => False
  end.
Proof.
  destruct (exhaust_state_outcome gens None) as [[st Hst]|Hst]; rewrite Hst.
  2:{ split; [done|]. intros Hdist.
      destruct (exhaust_state_returns gens None Hdist) as (st & _ & Hst' & _).
      congruence. }
  pose proof (exhaust_state_inv _ _ _ Hst) as [[r Hinv] Hcont].
  simpl in Hcont. apply bool_decide_eq_false in Hcont.
  assert (generators st = ∅) as Hempty.
  { apply map_size_empty_inv. lia. }
  assert (Hall : ∀ k, pulled gens (generators st) k = remaining gens k).
  { intros k. apply pulled_suffix.
    rewrite (remaining_None (generators st)), app_nil_r; [done|].
    by rewrite Hempty. }
  pose proof (while_loop_pulled_distinct gens None _ 0 _ st
                (scheduler_inv_init gens) (pulled_distinct_init gens) Hst)
    as [Hnd Hdisj].
  split; [|split; [done|]].
  - split.
    + intros k g Hk. specialize (Hnd k).
      by rewrite Hall, (remaining_Some _ _ _ Hk) in Hnd.
    + intros k1 k2 g1 g2 p1 p2 Hk1 Hk2 Hp1 Hp2. apply Hdisj.
      * by rewrite Hall, (remaining_Some _ _ _ Hk1).
      * by rewrite Hall, (remaining_Some _ _ _ Hk2).
  - intros q. split.
    + by apply (exhaust_pairs_sound gens None st q).
    + intros (k & g & p & Hk & Hp & ->).
      by apply (exhaust_pairs_complete gens st k g p).
Qed.
End scheduler_outcomes.

Lemma exhaust_state_count `{Countable K} `{PyOrd K}
    (gens : gmap K (list (string * string))) limit st :
  exhaust_state gens limit = Return st →
  size (pairs st) + total_pairs (generators st) = total_pairs gens.
Proof.
  intros Hst. rewrite (while_loop_count _ _ _ _ Hst). simpl.
  change (size (∅ : gset (gset string)) + total_pairs gens = total_pairs gens).
  by rewrite size_empty.
Qed.

(** X6. The scheduler fails in one way only, with the [ValueError] of its
    duplicate check and only over generators that produce some unordered
    pair twice: the key it pops is always in the dictionary and it never
    pops from an empty queue.  When it returns, the list holds as many
    pairs as the limit allows: all pairs of all generators without a limit,
    and the smaller of the limit and that number with one (none for a
    limit below zero). *)
Theorem scheduler_outcome `{HashOrder} `{Countable K} `{PyOrd K}
    (gens : gmap K (list (string * string))) (limit_num_trials : option Z) :
  match _exhaust_pairs_iterator_dictionary gens limit_num_trials with
  | Return out =>
    length out = match limit_num_trials with
                 | None => total_pairs gens
                 | Some limit => Z.to_nat limit `min` total_pairs gens
                 end
  | Raise e => e = ValueError ∧ ¬ distinct_pairs gens
  | OutOfFuel => False
  end.
Proof.
  unfold _exhaust_pairs_iterator_dictionary.
  destruct (exhaust_state_outcome gens limit_num_trials) as [[st Hst]|Hst];
    rewrite Hst; simpl.
  2:{ split; [done|]. intros Hdist.
      destruct (exhaust_state_returns gens limit_num_trials Hdist)
        as (st & _ & Hst' & _). congruence. }
  rewrite length_fmap, (Permutation_length (set_iter_perm (pairs st))).
  change (length (elements (pairs st))) with (size (pairs st)).
  pose proof (exhaust_state_count _ _ _ Hst) as Hcount.
  pose proof (exhaust_state_inv _ _ _ Hst) as [_ Hcont].
  assert (size (generators st) = 0 → total_pairs (generators st) = 0) as Hdone.
  { intros ->%map_size_empty_inv. apply total_pairs_empty. }
  destruct limit_num_trials as [limit|]; simpl in Hcont.
  - pose proof (exhaust_state_limit _ _ _ Hst) as Hle.
    apply andb_false_iff in Hcont
      as [Hcont%bool_decide_eq_false|Hcont%bool_decide_eq_false]; [|lia].
    rewrite Hdone in Hcount by lia. lia.
  - apply bool_decide_eq_false in Hcont. rewrite Hdone in Hcount by lia. lia.
Qed.

(** ** More on the passes *)

Section grouping_outcome.
Context `{HashOrder}.

Lemma samples_loop_Raise m l : ∀ acc,
  match samples_loop m l acc with
  | Return _ => True
  | Raise e => e = KeyError ∧ ∃ x, x ∈ l ∧ m !! x = None
  | OutOfFuel => False
  end.
Proof.
  induction l as [|x l IH]; intros acc; simpl; [done|].
  unfold dict_get. destruct (m !! x) as [s|] eqn:Hx; simpl.
  - specialize (IH (<[s:=acc !!! s ++ [x]]> acc)).
    destruct (samples_loop m l _); [done| |done].
    destruct IH as (-> & y & ? & ?). split; [done|].
    exists y. split; [by right|done].
  - split; [done|]. exists x. split; [left|done].
Qed.

Lemma samples_loop_Return_all m l : ∀ acc sps,
  samples_loop m l acc = Return sps → ∀ x, x ∈ l → is_Some (m !! x).
Proof.
  induction l as [|z l IH]; intros acc sps; simpl.
  - by intros _ ? ?%elem_of_nil.
  - unfold dict_get. destruct (m !! z) as [s|] eqn:Hz; [|done].
    simpl. intros Hl x [->|Hx]%elem_of_cons; [by eauto|]. by eapply IH.
Qed.

(** X7. Grouping returns the samples of every speaker that has one, each
    speaker with all its samples and each sample once, so no list is
    empty; it raises [KeyError] exactly when a sample has no speaker. *)
Theorem samples_per_speaker_outcome (samples : gset string)
    (map_sample_to_speaker : gmap string string) :
  match _samples_per_speaker samples map_sample_to_speaker with
  | Return samples_per_speaker =>
    (∀ s v, samples_per_speaker !! s = Some v →
            v ≠ [] ∧ NoDup v
            ∧ ∀ x, x ∈ v ↔ x ∈ samples ∧ map_sample_to_speaker !! x = Some s)
    ∧ (∀ x, x ∈ samples →
            ∃ s v, map_sample_to_speaker !! x = Some s
                   ∧ samples_per_speaker !! s = Some v ∧ x ∈ v)
  | Raise e =>
    e = KeyError ∧ ∃ x, x ∈ samples ∧ map_sample_to_speaker !! x = None
  | OutOfFuel => False
  end.
Proof.
  pose proof (samples_loop_Raise map_sample_to_speaker (set_iter samples) ∅)
    as Hraise.
  destruct (_samples_per_speaker samples map_sample_to_speaker)
    as [sps|e|] eqn:Hsps; unfold _samples_per_speaker in Hsps;
    rewrite Hsps in Hraise; [|destruct Hraise as (-> & x & Hx & ?)|done].
  2:{ split; [done|]. exists x. split; [|done].
      by rewrite set_iter_perm, elem_of_elements in Hx. }
  fold (_samples_per_speaker samples map_sample_to_speaker) in Hsps.
  split.
  - intros s v Hv.
    pose proof (lookup_total_correct _ _ _ Hv) as Htotal.
    assert (∀ x, x ∈ v ↔ x ∈ samples ∧ map_sample_to_speaker !! x = Some s)
      as Hiff.
    { intros x. rewrite <-Htotal. by apply elem_of_samples_per_speaker. }
    split; [|split; [|done]].
    + destruct (samples_per_speaker_dom _ _ _ Hsps s) as (x & Hx & Hs);
        [by eauto|].
      intros ->. assert (x ∈ @nil string) as Hin by by apply Hiff.
      by apply elem_of_nil in Hin.
    + rewrite <-Htotal.
      by apply (samples_per_speaker_NoDup map_sample_to_speaker samples).
  - intros x Hx.
    destruct (samples_loop_Return_all map_sample_to_speaker _ _ _ Hsps x)
      as [s Hs]; [by rewrite set_iter_perm, elem_of_elements|].
    destruct (samples_per_speaker_Some _ _ _ Hsps s x Hx Hs) as [v Hv].
    exists s, v. do 2 (split; [done|]).
    rewrite <-(lookup_total_correct _ _ _ Hv).
    by apply (elem_of_samples_per_speaker map_sample_to_speaker samples).
Qed.
End grouping_outcome.

Section negative_outcome.
Context `{HashOrder}.
Variables (ess : bool) (gm : gmap string string).

Lemma skip_combination_Return_no_fail k1 k2 b :
  skip_combination ess gm k1 k2 = Return b → ¬ lookup_fails ess gm k1 k2.
Proof.
  unfold skip_combination, dict_get, lookup_fails.
  case_bool_decide; [by intros _ (_ & ? & _)|].
  destruct ess; [|by intros _ (? & _)].
  destruct (gm !! k1); [|done]. destruct (gm !! k2); [|done].
  by intros _ (_ & _ & [?|?]).
Qed.

Lemma skip_combination_Raise k1 k2 e :
  skip_combination ess gm k1 k2 = Raise e → lookup_fails ess gm k1 k2.
Proof.
  unfold skip_combination, dict_get, lookup_fails.
  case_bool_decide; [done|]. destruct ess; [|done].
  destruct (gm !! k1); [|by auto]. destruct (gm !! k2); [done|by auto].
Qed.

Lemma inner_loop_no_fail k1 keys : ∀ acc S,
  inner_loop ess gm k1 keys acc = Return S →
  ∀ k2, k2 ∈ keys → ¬ lookup_fails ess gm k1 k2.
Proof.
  induction keys as [|k keys IH]; intros acc S; simpl.
  { by intros _ ? ?%elem_of_nil. }
  destruct (skip_combination ess gm k1 k) as [b| |] eqn:Hskip; try done.
  simpl. intros Hloop k2 [->|Hk2]%elem_of_cons.
  - by eapply skip_combination_Return_no_fail.
  - by eapply IH.
Qed.

Lemma inner_loop_Raise k1 keys : ∀ acc e,
  inner_loop ess gm k1 keys acc = Raise e →
  ∃ k2, k2 ∈ keys ∧ lookup_fails ess gm k1 k2.
Proof.
  induction keys as [|k keys IH]; intros acc e; simpl; [done|].
  destruct (skip_combination ess gm k1 k) as [b|e'|] eqn:Hskip; simpl.
  - intros (k2 & ? & ?)%IH. exists k2. split; [by right|done].
  - intros _. exists k. split; [left|]. by eapply skip_combination_Raise.
  - done.
Qed.

Lemma outer_loop_no_fail keys1 keys2 : ∀ acc S,
  outer_loop ess gm keys1 keys2 acc = Return S →
  ∀ k1 k2, k1 ∈ keys1 → k2 ∈ keys2 → ¬ lookup_fails ess gm k1 k2.
Proof.
  induction keys1 as [|k keys1 IH]; intros acc S; simpl.
  { by intros _ ? ? ?%elem_of_nil. }
  destruct (inner_loop ess gm k keys2 acc) as [S1| |] eqn:Hin; try done.
  simpl. intros Hloop k1 k2 [->|Hk1]%elem_of_cons Hk2.
  - by eapply inner_loop_no_fail.
  - by eapply IH.
Qed.

Lemma outer_loop_Raise keys1 keys2 : ∀ acc e,
  outer_loop ess gm keys1 keys2 acc = Raise e →
  ∃ k1 k2, k1 ∈ keys1 ∧ k2 ∈ keys2 ∧ lookup_fails ess gm k1 k2.
Proof.
  induction keys1 as [|k keys1 IH]; intros acc e; simpl; [done|].
  destruct (inner_loop ess gm k keys2 acc) as [S1|e'|] eqn:Hin; simpl.
  - intros (k1 & k2 & ? & ? & ?)%IH. exists k1, k2. split; [by right|done].
  - intros _. destruct (inner_loop_Raise _ _ _ _ Hin) as (k2 & ? & ?).
    exists k, k2. split; [left|done].
  - done.
Qed.

(** X8. The negative pass raises [KeyError] exactly when genders are
    consulted ([ensure_same_sex_trials] is set and there are two speakers)
    and some speaker has no gender; with the flag off, or with one
    speaker, the gender map is never read. *)
Theorem negative_pairs_KeyError
    (samples_per_speaker : gmap string (list string))
    (limit_num_trials : option Z) :
  _negative_pairs ess gm samples_per_speaker limit_num_trials = Raise KeyError
  ↔ ess = true
    ∧ ∃ k1 k2, k1 ≠ k2
               ∧ is_Some (samples_per_speaker !! k1)
               ∧ is_Some (samples_per_speaker !! k2)
               ∧ gm !! k1 = None.
Proof.
  unfold _negative_pairs.
  set (keys := sorted (dict_keys samples_per_speaker)).
  assert (Hkeys : ∀ k, k ∈ keys ↔ is_Some (samples_per_speaker !! k)).
  { intros k. apply elem_of_sorted_dict_keys. }
  destruct (outer_loop ess gm keys keys ∅) as [S|e|] eqn:Houter; simpl.
  - split.
    + unfold _exhaust_pairs_iterator_dictionary.
      destruct (exhaust_state_outcome
                  (negative_generators samples_per_speaker S)
                  limit_num_trials) as [[st ->]| ->]; done.
    + intros (Hess & k1 & k2 & Hne & H1 & H2 & Hnone).
      destruct (outer_loop_no_fail _ _ _ _ Houter k1 k2).
      * by apply Hkeys.
      * by apply Hkeys.
      * split; [done|]. split; [done|]. by left.
  - destruct (outer_loop_outcome ess gm keys keys ∅) as [[S HS]|HS];
      [congruence|].
    assert (e = KeyError) as -> by congruence. split; [|done]. intros _.
    destruct (outer_loop_Raise _ _ _ _ Houter)
      as (k1 & k2 & H1%Hkeys & H2%Hkeys & Hess & Hne & Hnone).
    split; [done|]. destruct Hnone as [Hnone|Hnone].
    + by exists k1, k2.
    + by exists k2, k1.
  - destruct (outer_loop_outcome ess gm keys keys ∅) as [[S HS]|HS];
      congruence.
Qed.
End negative_outcome.

(** ** The order of the returned list *)

Section sorted_output.
Context {A : Type} (f : A → string).

Lemma insert_by_Sorted x l :
  Sorted (not_before f) l → Sorted (not_before f) (insert_by f x l).
Proof.
  induction 1 as [|y l Hsorted IH Hhd]; simpl.
  { by repeat constructor. }
  destruct (py_lt (f y) (f x)) eqn:Hlt.
  - constructor; [done|].
    destruct Hhd as [|z l Hyz]; simpl.
    + constructor. by apply str_lt_asym.
    + destruct (py_lt (f z) (f x)); constructor; [done|].
      by apply str_lt_asym.
  - constructor; [by constructor|]. by constructor.
Qed.

Lemma sorted_by_Sorted l : Sorted (not_before f) (sorted_by f l).
Proof.
  induction l as [|x l IH]; simpl; [constructor|]. by apply insert_by_Sorted.
Qed.
End sorted_output.

Section output_order.
Context `{HashOrder}.
Variable trial_str : SpeakerTrial → string.

Lemma trials_of_flags b l : ∀ ts,
  trials_of b l = Return ts → Forall (λ t, same_speaker t = b) ts.
Proof.
  induction l as [|tuple l IH]; intros ts; simpl.
  { intros [= <-]. constructor. }
  destruct tuple as [|x [|y [|z tuple]]]; try done.
  destruct (trials_of b l) as [ts'| |]; try done. simpl.
  intros [= <-]. constructor; [done|]. by apply IH.
Qed.

Lemma trial_set_sorted b l T :
  trial_set b l = Return T →
  Forall (λ t, same_speaker t = b) (sorted_by trial_str (set_iter T))
  ∧ Sorted (not_before trial_str) (sorted_by trial_str (set_iter T)).
Proof.
  unfold trial_set.
  destruct (trials_of b l) as [ts| |] eqn:Hts; try done. simpl.
  intros [= <-]. split; [|apply sorted_by_Sorted].
  apply trials_of_flags in Hts. rewrite Forall_forall in Hts.
  apply Forall_forall. intros t.
  rewrite sorted_by_perm, set_iter_perm, elem_of_elements, elem_of_list_to_set.
  apply Hts.
Qed.

(** X9. The returned list is the positive trials followed by the negative
    trials, and each of the two blocks is in the order of [sorted] on the
    text of the trials: no trial is followed by one whose text is
    smaller. *)
Theorem generate_sorted (samples : gset string) (m gm : gmap string string)
    (ess : bool) (limit : option Z) (out : list SpeakerTrial) :
  generate_speaker_trials trial_str samples m gm ess limit = Return out →
  ∃ pos neg,
    out = pos ++ neg
    ∧ Forall (λ t, same_speaker t = true) pos
    ∧ Forall (λ t, same_speaker t = false) neg
    ∧ Sorted (not_before trial_str) pos
    ∧ Sorted (not_before trial_str) neg.
Proof.
  unfold generate_speaker_trials.
  destruct (_samples_per_speaker samples m) as [sps| |]; try done. simpl.
  destruct (_positive_pairs sps limit) as [l1| |]; try done. simpl.
  destruct (trial_set true l1) as [Tp| |] eqn:HTp; try done. simpl.
  destruct (_negative_pairs ess gm sps limit) as [l2| |]; try done. simpl.
  destruct (trial_set false l2) as [Tn| |] eqn:HTn; try done. simpl.
  intros [= <-]. eexists _, _. split; [done|].
  destruct (trial_set_sorted _ _ _ HTp), (trial_set_sorted _ _ _ HTn).
  by repeat split.
Qed.
End output_order.

Section generate_failure.
Context `{HashOrder}.
Variable trial_str : SpeakerTrial → string.

(** X13. [generate_speaker_trials] returns a list or raises [KeyError], and
    it raises exactly when a sample has no speaker, or genders are
    consulted ([ensure_same_sex_trials] is set and the samples have two
    speakers) and one of the speakers has no gender.  A missing gender is
    not noticed with the flag off or with one speaker only, and the limit
    plays no role. *)
Theorem generate_fails_iff (samples : gset string)
    (m gm : gmap string string) (ess : bool) (limit : option Z) :
  (generate_speaker_trials trial_str samples m gm ess limit = Raise KeyError
   ↔ (∃ x, x ∈ samples ∧ m !! x = None)
     ∨ (ess = true
        ∧ ∃ x y s1 s2, x ∈ samples ∧ y ∈ samples
                       ∧ m !! x = Some s1 ∧ m !! y = Some s2
                       ∧ s1 ≠ s2 ∧ gm !! s1 = None))
  ∧ (generate_speaker_trials trial_str samples m gm ess limit = Raise KeyError
     ∨ ∃ out,
         generate_speaker_trials trial_str samples m gm ess limit
         = Return out).
Proof.
  unfold generate_speaker_trials.
  destruct (samples_loop_outcome m (set_iter samples) ∅) as [[sps Hsps]|Hsps];
    unfold _samples_per_speaker at 1 2 3; rewrite Hsps; simpl.
  2:{ split; [|by left]. split; [|done]. intros _. left.
      pose proof (samples_loop_Raise m (set_iter samples) ∅) as Hr.
      rewrite Hsps in Hr. destruct Hr as (_ & x & Hx & Hnone).
      exists x. split; [|done].
      by rewrite set_iter_perm, elem_of_elements in Hx. }
  assert (Hall : ∀ x, x ∈ samples → is_Some (m !! x)).
  { intros x Hx. apply (samples_loop_Return_all _ _ _ _ Hsps).
    by rewrite set_iter_perm, elem_of_elements. }
  assert (Hkeys : ∀ k, k ∈ sorted (dict_keys sps) ↔ is_Some (sps !! k)).
  { intros k. apply elem_of_sorted_dict_keys. }
  destruct (positive_pairs_spec samples m sps Hsps limit)
    as (stp & Hstp & Hpsound & _).
  unfold _positive_pairs, _exhaust_pairs_iterator_dictionary.
  rewrite Hstp. simpl.
  destruct (trial_set_spec trial_str true (pairs stp))
    as (Tp & -> & _ & _).
  { intros q Hq. by eapply same_speaker_pair_two, Hpsound. }
  simpl. unfold _negative_pairs.
  destruct (outer_loop_outcome ess gm (sorted (dict_keys sps))
              (sorted (dict_keys sps)) ∅) as [[S HS]|HS]; rewrite HS; simpl.
  - destruct (negative_pairs_spec samples m gm ess sps Hsps limit S HS)
      as (stn & Hstn & Hnsound & _).
    unfold _exhaust_pairs_iterator_dictionary. rewrite Hstn. simpl.
    destruct (trial_set_spec trial_str false (pairs stn))
      as (Tn & -> & _ & _).
    { intros q Hq. by eapply cross_speaker_pair_two, Hnsound. }
    simpl. split; [|right; by eauto]. split; [done|].
    intros [(x & Hx & Hnone)|(Hess & x & y & s1 & s2 & Hx & Hy & Hxs & Hys
                               & Hne & Hg)].
    + destruct (Hall x Hx). congruence.
    + destruct (outer_loop_no_fail ess gm _ _ _ _ HS s1 s2).
      * apply Hkeys. by apply (samples_per_speaker_Some m samples sps Hsps s1 x).
      * apply Hkeys. by apply (samples_per_speaker_Some m samples sps Hsps s2 y).
      * split; [done|]. split; [done|]. by left.
  - split; [|by left]. split; [|done]. intros _. right.
    destruct (outer_loop_Raise _ _ _ _ _ _ HS)
      as (k1 & k2 & H1%Hkeys & H2%Hkeys & Hess & Hne & Hnone).
    split; [done|].
    destruct (samples_per_speaker_dom m samples sps Hsps k1 H1)
      as (x & Hx & Hxs).
    destruct (samples_per_speaker_dom m samples sps Hsps k2 H2)
      as (y & Hy & Hys).
    destruct Hnone as [Hnone|Hnone].
    + by exists x, y, k1, k2.
    + exists y, x, k2, k1. by repeat split.
Qed.
End generate_failure.

(** ** From the pipeline to the trials *)

Lemma size_ne_1_other (gs : gset string) (g1 : string) :
  g1 ∈ gs → size gs ≠ 1 → ∃ g2, g2 ∈ gs ∧ g2 ≠ g1.
Proof.
  intros Hg1 Hsize.
  destruct (set_choose_or_empty (gs ∖ {[g1]})) as [[g2 Hg2]|Hempty].
  - apply elem_of_difference in Hg2 as [? Hne]. exists g2. split; [done|].
    intros ->. apply Hne. by apply elem_of_singleton.
  - destruct Hsize. assert (gs = {[g1]}) as ->; [|apply size_singleton].
    apply set_eq. intros z. rewrite elem_of_singleton. split; [|by intros ->].
    intros Hz. destruct (decide (z = g1)) as [|Hne]; [done|].
    destruct (not_elem_of_empty (C:=gset string) z). rewrite <-Hempty.
    apply elem_of_difference. split; [done|]. by rewrite elem_of_singleton.
Qed.

Section pipeline_facts.
Import WavAudioDataSampleTrialAggregator.

(** The two ways in which the loop of [get_gender_mapping] fails. *)
Lemma gender_loop_Raise keys : ∀ genders ret,
  NoDup keys →
  match (gender_loop keys genders ret).1 with
  | Return _ => True
  | Raise e =>
    (e = ValueError
     ∧ ∃ k, k ∈ keys ∧ size (gender_set_of genders k) ≠ 1)
    ∨ (e = AssertionError
       ∧ ∃ k g, k ∈ keys ∧ genders !! k = Some {[g]} ∧ g ≠ "f" ∧ g ≠ "m")
  | OutOfFuel => False
  end.
Proof.
  induction keys as [|k keys IH]; intros genders ret Hnd; simpl; [done|].
  apply NoDup_cons in Hnd as [Hk Hnd].
  case_bool_decide as Hsz; simpl.
  { left. split; [done|]. exists k. split; [left|done]. }
  destruct (gender_set_size_1 _ _ Hsz) as [g Hg].
  rewrite (gender_set_of_Some _ _ _ Hg), set_pop_singleton.
  case_bool_decide as Hfm; simpl.
  - specialize (IH (<[k:=∅]> genders) (<[k:=g]> ret) Hnd).
    destruct (gender_loop keys _ _) as [[m|e|] genders']; simpl in *;
      [done| |done].
    destruct IH as [(-> & k' & Hk' & Hsize)|(-> & k' & g' & Hk' & Hg' & Hne)].
    + left. split; [done|]. exists k'. split; [by right|].
      unfold gender_set_of in *. rewrite lookup_insert_ne in Hsize; [done|].
      by intros ->.
    + right. split; [done|]. exists k', g'. split; [by right|].
      rewrite lookup_insert_ne in Hg'; [done|]. by intros ->.
  - right. split; [done|]. exists k, g. split; [left|]. split; [done|].
    split; intros ->; apply Hfm; by auto.
Qed.

Section stream.
Variable sortf : list string → list string.
Hypothesis sortf_perm : ∀ l, sortf l ≡ₚ l.
Variables (dp : list WavAudioDataSample) (ag : t).
Hypothesis Hag : ingest __init__ dp = Return ag.

Lemma stream_labelled : Forall labelled dp.
Proof. pose proof (ingest_cases dp) as Hc. rewrite Hag in Hc. apply Hc. Qed.

Lemma stream_ingested : ingested dp ag.
Proof. pose proof (ingest_cases dp) as Hc. rewrite Hag in Hc. apply Hc. Qed.

(** A gender mapping that is returned gives every speaker of the pipeline
    the gender of its samples. *)
Lemma gender_mapping_Return m ag' :
  get_gender_mapping sortf ag = (Return m, ag') →
  map_sample_id_to_speaker_id ag' = map_sample_id_to_speaker_id ag
  ∧ (∀ s g, m !! s = Some g ↔
       ∃ x, x ∈ dp ∧ speaker_id x = Some s ∧ gender x = Some g)
  ∧ (∀ s g, m !! s = Some g → g = "f" ∨ g = "m").
Proof.
  pose proof stream_ingested as Hing. unfold get_gender_mapping.
  set (genders := _map_speaker_id_to_gender ag).
  pose proof (sorted_keys_NoDup sortf sortf_perm genders) as Hnd.
  destruct (gender_loop _ genders ∅) as [r genders'] eqn:Hloop.
  intros [= -> <-]. split; [done|].
  pose proof (gender_loop_Return _ _ _ _ _ Hnd Hloop) as Hok.
  destruct (gender_loop_ok _ genders ∅ Hnd Hok)
    as (m' & genders'' & Heq & Hin & Hout).
  rewrite Hloop in Heq. injection Heq as <- <-.
  assert (Hm : ∀ s g, m !! s = Some g →
    genders !! s = Some {[g]} ∧ (g = "f" ∨ g = "m")).
  { intros s g Hs.
    destruct (decide (s ∈ sortf (elements (dom genders)))) as [Hk|Hk].
    - destruct (Hin s Hk) as (_ & g' & Hg' & Hmg).
      destruct (Hok s Hk) as (g'' & Hg'' & Hfm).
      rewrite Hs in Hmg. injection Hmg as <-.
      rewrite Hg' in Hg''. apply (inj Some) in Hg''.
      apply (inj (singleton (B:=gset string))) in Hg''. by subst.
    - destruct (Hout s Hk) as [_ Hnone]. by rewrite Hs, lookup_empty in Hnone. }
  split; [|by intros s g [_ ?]%Hm].
  intros s g. split.
  - intros [Hs _]%Hm. apply (ing_genders _ _ Hing). fold genders.
    rewrite (gender_set_of_Some _ _ _ Hs). by apply elem_of_singleton.
  - intros (x & Hx & Hxs & Hxg).
    assert (s ∈ sortf (elements (dom genders))) as Hk.
    { apply elem_of_sorted_keys; [done|].
      apply (ing_gender_dom _ _ Hing). by exists x. }
    destruct (Hin s Hk) as (_ & g' & Hg' & Hmg).
    assert (g ∈ gender_set_of genders s) as Hgin.
    { apply (ing_genders _ _ Hing). by exists x. }
    rewrite (gender_set_of_Some _ _ _ Hg') in Hgin.
    by apply elem_of_singleton in Hgin as ->.
Qed.

(** The two ways in which [get_gender_mapping] fails on the state after
    ingestion. *)
Lemma gender_mapping_Raise r ag' :
  get_gender_mapping sortf ag = (r, ag') →
  match r with
  | Return _ => True
  | Raise e =>
    (e = ValueError
     ∧ ∃ x y, x ∈ dp ∧ y ∈ dp ∧ speaker_id x = speaker_id y
              ∧ gender x ≠ gender y)
    ∨ (e = AssertionError
       ∧ ∃ x g, x ∈ dp ∧ gender x = Some g ∧ g ≠ "f" ∧ g ≠ "m")
  | OutOfFuel => False
  end.
Proof.
  intros Hcall.
  pose proof stream_ingested as Hing. pose proof stream_labelled as Hlab.
  set (genders := _map_speaker_id_to_gender ag).
  pose proof (gender_loop_Raise (sortf (elements (dom genders))) genders ∅
                (sorted_keys_NoDup sortf sortf_perm genders)) as Hraise.
  assert ((gender_loop (sortf (elements (dom genders))) genders ∅).1 = r)
    as Hr.
  { unfold get_gender_mapping in Hcall. fold genders in Hcall.
    destruct (gender_loop _ genders ∅). by injection Hcall as -> _. }
  rewrite Hr in Hraise. destruct r as [m|e|]; [done| |done].
  rewrite Forall_forall in Hlab.
  destruct Hraise as [(-> & k & Hk & Hsize)|(-> & k & g & Hk & Hg & Hf & Hm)].
  - left. split; [done|].
    apply elem_of_sorted_keys in Hk; [|done].
    apply (ing_gender_dom _ _ Hing) in Hk as (x & Hx & Hxs).
    destruct (Hlab x Hx) as [_ [g1 Hg1]].
    assert (g1 ∈ gender_set_of genders k) as Hin.
    { apply (ing_genders _ _ Hing). by exists x. }
    destruct (size_ne_1_other _ _ Hin Hsize) as (g2 & Hg2 & Hne).
    apply (ing_genders _ _ Hing) in Hg2 as (y & Hy & Hys & Hyg).
    exists x, y. do 2 (split; [done|]). split; congruence.
  - right. split; [done|].
    assert (g ∈ gender_set_of genders k) as Hin.
    { rewrite (gender_set_of_Some _ _ _ Hg). by apply elem_of_singleton. }
    apply (ing_genders _ _ Hing) in Hin as (x & Hx & _ & Hxg).
    by exists x, g.
Qed.

(** X4. On the state after ingestion, [get_gender_mapping] returns the map
    that gives every speaker the gender of its samples, "f" or "m"; it
    raises [ValueError] only when two samples of one speaker differ in
    gender, and fails its assertion only when a sample has another gender
    than "f" and "m". *)
Theorem gender_mapping_of_stream :
  match (get_gender_mapping sortf ag).1 with
  | Return m =>
    (∀ s g, m !! s = Some g ↔
       ∃ x, x ∈ dp ∧ speaker_id x = Some s ∧ gender x = Some g)
    ∧ (∀ s g, m !! s = Some g → g = "f" ∨ g = "m")
  | Raise e =>
    (e = ValueError
     ∧ ∃ x y, x ∈ dp ∧ y ∈ dp ∧ speaker_id x = speaker_id y
              ∧ gender x ≠ gender y)
    ∨ (e = AssertionError
       ∧ ∃ x g, x ∈ dp ∧ gender x = Some g ∧ g ≠ "f" ∧ g ≠ "m")
  | OutOfFuel => False
  end.
Proof.
  destruct (get_gender_mapping sortf ag) as [r ag'] eqn:Hcall.
  pose proof (gender_mapping_Raise r ag' Hcall) as Hraise.
  destruct r as [m|e|]; simpl; [|done|done].
  by destruct (gender_mapping_Return _ _ Hcall) as (_ & ? & ?).
Qed.
End stream.
End pipeline_facts.

Lemma trial_list_NoDup samples m gm ess limit pos neg :
  trial_list_spec samples m gm ess limit pos neg →
  NoDup (trial_pair <$> pos ++ neg).
Proof.
  intros Hspec. rewrite fmap_app. apply NoDup_app.
  split; [apply Hspec|]. split; [|apply Hspec].
  intros q Hpos Hneg.
  apply (same_cross_disjoint samples m gm ess q).
  - by apply (pos_sound _ _ _ _ _ _ _ Hspec).
  - by apply (neg_sound _ _ _ _ _ _ _ Hspec).
Qed.

Section main_facts.
Import WavAudioDataSampleTrialAggregator.
Context `{HashOrder}.
Variable sortf : list string → list string.
Hypothesis sortf_perm : ∀ l, sortf l ≡ₚ l.
Variable trial_str : SpeakerTrial → string.

(** X10. [main] never fails with a [KeyError]: once ingestion and the
    gender mapping went through, every lookup of the trial generation
    succeeds.  The list it hands to the file holds no unordered pair
    twice, and every trial pairs two different samples of the pipeline,
    is flagged as same-speaker exactly when their speakers agree, and
    pairs samples of one gender when [ensure_same_sex_trials] is set. *)
Theorem main_outcome (dp : list WavAudioDataSample)
    (ensure_same_sex_trials : bool) (limit_num_trials : option Z) :
  match main sortf trial_str dp ensure_same_sex_trials limit_num_trials with
  | Return out =>
    NoDup (trial_pair <$> out)
    ∧ ∀ t, t ∈ out →
        ∃ x y, x ∈ dp ∧ y ∈ dp ∧ key x = left t ∧ key y = right t
               ∧ left t ≠ right t
               ∧ (same_speaker t = true ↔ speaker_id x = speaker_id y)
               ∧ (ensure_same_sex_trials = true → gender x = gender y)
  | Raise e => e = ValueError ∨ e = AssertionError
  | OutOfFuel => False
  end.
Proof.
  unfold main. pose proof (ingest_cases dp) as Hcases.
  destruct (ingest __init__ dp) as [ag|e|] eqn:Hag; simpl; [| |done].
  2:{ left. by destruct Hcases. }
  destruct Hcases as (_ & Hlab & Hing). rewrite Forall_forall in Hlab.
  pose proof (gender_loop_Raise
                (sortf (elements (dom (_map_speaker_id_to_gender ag))))
                (_map_speaker_id_to_gender ag) ∅
                (sorted_keys_NoDup sortf sortf_perm _)) as Hraise.
  destruct (get_gender_mapping sortf ag) as [r ag'] eqn:Hcall.
  assert ((gender_loop (sortf (elements (dom (_map_speaker_id_to_gender ag))))
             (_map_speaker_id_to_gender ag) ∅).1 = r) as Hr.
  { unfold get_gender_mapping in Hcall.
    destruct (gender_loop _ _ ∅). by injection Hcall as -> _. }
  rewrite Hr in Hraise. destruct r as [m|e|]; simpl; [| |done].
  2:{ destruct Hraise as [[-> _]|[-> _]]; by auto. }
  destruct (gender_mapping_Return sortf sortf_perm dp ag Hag m ag' Hcall)
    as (-> & Hm & _).
  set (samples := sample_ids ag).
  set (speakers := map_sample_id_to_speaker_id ag).
  assert (Hsample : ∀ k s, speakers !! k = Some s →
    ∃ x g, x ∈ dp ∧ key x = k ∧ speaker_id x = Some s
           ∧ gender x = Some g ∧ m !! s = Some g).
  { intros k s (x & Hx & Hk & Hs)%(ing_map _ _ Hing).
    destruct (Hlab x Hx) as [_ [g Hg]]. exists x, g.
    do 4 (split; [done|]). apply Hm. by exists x. }
  assert (valid_input samples speakers m ensure_same_sex_trials) as Hvalid.
  { split.
    - intros k (x & Hx & Hk)%(ing_samples _ _ Hing).
      destruct (Hlab x Hx) as [[s Hs] _]. exists s.
      apply (ing_map _ _ Hing). by exists x.
    - intros _ k s _ (x & g & _ & _ & _ & _ & ?)%Hsample. by eauto. }
  destruct (generate_returns trial_str samples speakers m
              ensure_same_sex_trials limit_num_trials Hvalid)
    as (pos & neg & -> & Hspec).
  split; [by eapply trial_list_NoDup|].
  pose proof (pos_flags _ _ _ _ _ _ _ Hspec) as Hpf.
  pose proof (neg_flags _ _ _ _ _ _ _ Hspec) as Hnf.
  rewrite Forall_forall in Hpf, Hnf.
  intros t [Ht|Ht]%elem_of_app.
  - assert (same_speaker_pair samples speakers (trial_pair t)) as Hpair.
    { apply (pos_sound _ _ _ _ _ _ _ Hspec). by apply list_elem_of_fmap_2. }
    destruct Hpair as (a & b & s & _ & _ & Hne & Ha & Hb & Heq).
    destruct (Hsample _ _ Ha) as (x & gx & Hx & Hkx & Hsx & Hgx & Hmx).
    destruct (Hsample _ _ Hb) as (y & gy & Hy & Hky & Hsy & Hgy & Hmy).
    assert (gender x = gender y) as Hg by congruence.
    assert (speaker_id x = speaker_id y) as Hs by congruence.
    apply (fs_eq (left t) (right t) a b) in Heq as [[Hl Hr']|[Hl Hr']].
    + exists x, y. rewrite (Hpf t Ht). repeat split; congruence.
    + exists y, x. rewrite (Hpf t Ht). repeat split; congruence.
  - assert (cross_speaker_pair samples speakers m ensure_same_sex_trials
              (trial_pair t)) as Hpair.
    { apply (neg_sound _ _ _ _ _ _ _ Hspec). by apply list_elem_of_fmap_2. }
    destruct Hpair as (a & b & s1 & s2 & _ & _ & Ha & Hb & [Hne Hq] & Heq).
    destruct (Hsample _ _ Ha) as (x & gx & Hx & Hkx & Hsx & Hgx & Hmx).
    destruct (Hsample _ _ Hb) as (y & gy & Hy & Hky & Hsy & Hgy & Hmy).
    assert (ensure_same_sex_trials = true → gender x = gender y) as Hg.
    { intros Hess. destruct (Hq Hess) as (g & ? & ?). congruence. }
    assert (speaker_id x ≠ speaker_id y) as Hs by congruence.
    assert (a ≠ b) as Hab by (intros ->; congruence).
    apply (fs_eq (left t) (right t) a b) in Heq as [[Hl Hr']|[Hl Hr']].
    + exists x, y. rewrite (Hnf t Ht).
      do 4 (split; [congruence|]). split; [congruence|]. by split.
    + exists y, x. rewrite (Hnf t Ht).
      do 4 (split; [congruence|]). split; [congruence|].
      split; [split; [done|]; intros ?; by destruct Hs|].
      intros Hess. symmetry. by apply Hg.
Qed.

(** X12. [main] writes a trial list exactly for a clean pipeline: no sample
    id twice, both labels on every sample, one gender per speaker and no
    gender but "f" and "m".  Neither [ensure_same_sex_trials] nor the
    limit can make it fail. *)
Theorem main_returns_iff (dp : list WavAudioDataSample)
    (ensure_same_sex_trials : bool) (limit_num_trials : option Z) :
  (∃ out, main sortf trial_str dp ensure_same_sex_trials limit_num_trials
          = Return out)
  ↔ clean_stream dp.
Proof.
  unfold main, clean_stream. pose proof (ingest_cases dp) as Hcases.
  destruct (ingest __init__ dp) as [ag|e|] eqn:Hag; simpl; [| |done].
  2:{ destruct Hcases as [_ Hbad]. split; [by intros [? ?]|].
      intros (? & ? & _). by destruct Hbad. }
  destruct Hcases as (Hnd & Hlab & Hing).
  destruct (get_gender_mapping sortf ag) as [r ag'] eqn:Hcall.
  pose proof (gender_mapping_Raise sortf sortf_perm dp ag Hag r ag' Hcall)
    as Hraise.
  destruct r as [m|e|]; simpl; [| |done].
  2:{ split; [by intros [? ?]|]. intros (_ & _ & Hone & Hfm).
      destruct Hraise as [(_ & x & y & Hx & Hy & Hs & Hg)
                         |(_ & x & g & Hx & Hg & Hf & Hm)].
      - destruct Hg. by apply Hone.
      - destruct (Hfm x g Hx Hg); congruence. }
  destruct (gender_mapping_Return sortf sortf_perm dp ag Hag m ag' Hcall)
    as (-> & Hm & Hfm).
  pose proof Hlab as Hlab'. rewrite Forall_forall in Hlab'.
  split.
  - intros _. do 2 (split; [done|]). split.
    + intros x y Hx Hy Hs.
      destruct (Hlab' x Hx) as [[s Hxs] [gx Hgx]].
      destruct (Hlab' y Hy) as [_ [gy Hgy]].
      assert (m !! s = Some gx) as Hmx by (apply Hm; by exists x).
      assert (m !! s = Some gy) as Hmy.
      { apply Hm. exists y. repeat split; congruence. }
      congruence.
    + intros x g Hx Hg. destruct (Hlab' x Hx) as [[s Hxs] _].
      apply (Hfm s g). apply Hm. by exists x.
  - intros _.
    assert (valid_input (sample_ids ag) (map_sample_id_to_speaker_id ag) m
              ensure_same_sex_trials) as Hvalid.
    { split.
      - intros k (x & Hx & Hk)%(ing_samples _ _ Hing).
        destruct (Hlab' x Hx) as [[s Hs] _]. exists s.
        apply (ing_map _ _ Hing). by exists x.
      - intros _ k s _ (x & Hx & _ & Hs)%(ing_map _ _ Hing).
        destruct (Hlab' x Hx) as [_ [g Hg]]. exists g.
        apply Hm. by exists x. }
    destruct (generate_returns trial_str (sample_ids ag)
                (map_sample_id_to_speaker_id ag) m
                ensure_same_sex_trials limit_num_trials Hvalid)
      as (pos & neg & -> & _).
    by eauto.
Qed.
End main_facts.

(** ** Further instances at concrete inputs *)


Lemma ingest_invariant_witness :
  dom (WavAudioDataSampleTrialAggregator.map_sample_id_to_speaker_id
         example_aggregator)
  = WavAudioDataSampleTrialAggregator.sample_ids example_aggregator
  ∧ dom (WavAudioDataSampleTrialAggregator._map_speaker_id_to_gender
           example_aggregator)
    = WavAudioDataSampleTrialAggregator.speaker_ids example_aggregator
  ∧ (∀ k s,
       WavAudioDataSampleTrialAggregator.map_sample_id_to_speaker_id
         example_aggregator !! k = Some s →
       s ∈ WavAudioDataSampleTrialAggregator.speaker_ids example_aggregator)
  ∧ (∀ s gs,
       WavAudioDataSampleTrialAggregator._map_speaker_id_to_gender
         example_aggregator !! s = Some gs → gs ≠ ∅).
Proof.
  apply (ingest_invariant example_stream example_aggregator).
  vm_compute. reflexivity.
Defined.

Lemma gender_mapping_of_stream_witness :
  match (WavAudioDataSampleTrialAggregator.get_gender_mapping id
           example_aggregator).1 with
  | Return m =>
    (∀ s g, m !! s = Some g ↔
       ∃ x, x ∈ example_stream ∧ speaker_id x = Some s ∧ gender x = Some g)
    ∧ (∀ s g, m !! s = Some g → g = "f" ∨ g = "m")
  | Raise e =>
    (e = ValueError
     ∧ ∃ x y, x ∈ example_stream ∧ y ∈ example_stream
              ∧ speaker_id x = speaker_id y ∧ gender x ≠ gender y)
    ∨ (e = AssertionError
       ∧ ∃ x g, x ∈ example_stream ∧ gender x = Some g ∧ g ≠ "f" ∧ g ≠ "m")
  | OutOfFuel => False
  end.
Proof.
  apply (gender_mapping_of_stream id (λ l, reflexivity l) example_stream
           example_aggregator).
  vm_compute. reflexivity.
Defined.

Lemma main_outcome_witness :
  match main (H:=hash_elements) id line_of_trial example_stream true None with
  | Return out =>
    NoDup (trial_pair <$> out)
    ∧ ∀ t, t ∈ out →
        ∃ x y, x ∈ example_stream ∧ y ∈ example_stream
               ∧ key x = left t ∧ key y = right t ∧ left t ≠ right t
               ∧ (same_speaker t = true ↔ speaker_id x = speaker_id y)
               ∧ (true = true → gender x = gender y)
  | Raise e => e = ValueError ∨ e = AssertionError
  | OutOfFuel => False
  end.
Proof.
  apply (main_outcome (H:=hash_elements) id (λ l, reflexivity l) line_of_trial
           example_stream true None).
Defined.

Lemma generate_sorted_witness :
  ∃ pos neg,
    [{| left := "a1"; right := "a2"; same_speaker := true |};
     {| left := "a3"; right := "a1"; same_speaker := true |};
     {| left := "a3"; right := "a2"; same_speaker := true |};
     {| left := "b1"; right := "b2"; same_speaker := true |};
     {| left := "a1"; right := "b1"; same_speaker := false |};
     {| left := "a1"; right := "b2"; same_speaker := false |};
     {| left := "a2"; right := "b1"; same_speaker := false |};
     {| left := "a2"; right := "b2"; same_speaker := false |};
     {| left := "a3"; right := "b1"; same_speaker := false |};
     {| left := "a3"; right := "b2"; same_speaker := false |}]
    = pos ++ neg
    ∧ Forall (λ t, same_speaker t = true) pos
    ∧ Forall (λ t, same_speaker t = false) neg
    ∧ Sorted (not_before line_of_trial) pos
    ∧ Sorted (not_before line_of_trial) neg.
Proof.
  apply (generate_sorted (H:=hash_elements) line_of_trial example_samples
           example_speakers example_genders true None).
  vm_compute. reflexivity.
Defined.

Lemma main_returns_iff_witness :
  (∃ out, main (H:=hash_elements) id line_of_trial example_stream true None
          = Return out)
  ↔ clean_stream example_stream.
Proof.
  apply (main_returns_iff (H:=hash_elements) id (λ l, reflexivity l)
           line_of_trial example_stream true None).
Defined.
